(** * LinkRanker: the hybrid ranking engine of [ranking.py]

    A shallow embedding of class [AdvancedRanking]: the BM25 relevance
    scorers, the authority computation and the orchestrator
    [rank_documents], with the properties of the ranking specification
    stated and settled against it.

    Numbers.  Python floats and NumPy [float64] values are idealised: a
    finite value is a real number (rounding and overflow are not
    modelled), and the two IEEE special values that NumPy arithmetic
    produces without raising, infinity and NaN, are kept, because the
    zero-denominator guard of the scorers is about them.  Python-level
    float arithmetic ([/] and [math.log] in [calculate_idf]) raises
    instead, and is modelled in the error monad. *)

From Stdlib Require Import Reals Lra ZArith.
From stdpp Require Import gmap strings list fin_maps sorting.

(** ** Faults and the error monad *)

Inductive exn : Type :=
  | KeyError
  | ValueError
  | TypeError
  | ZeroDivisionError
  | SolverError.

Inductive result (A : Type) : Type :=
  | Ok (a : A)
  | Raise (e : exn).
Arguments Ok {A} a.
Arguments Raise {A} e.

#[global] Instance result_ret : MRet result := λ A a, Ok a.
#[global] Instance result_bind : MBind result := λ A B f m,
  match m with
  | Ok a => f a
  | Raise e => Raise e
  end.
#[global] Instance result_fmap : FMap result := λ A B f m,
  match m with
  | Ok a => Ok (f a)
  | Raise e => Raise e
  end.

(** [try: body except Exception: return d] *)
Definition try_except {A} (body : result A) (d : A) : A :=
  match body with
  | Ok a => a
  | Raise _ => d
  end.

(** ** Numbers *)

#[global] Instance R_eq_dec : EqDecision R := Req_dec_T.

Definition Rltb (x y : R) : bool := if Rlt_dec x y then true else false.

(** A NumPy [float64]: a finite value, a signed infinity or NaN. *)
Inductive float64 : Type :=
  | Fin (r : R)
  | Inf (neg : bool)
  | NaN.

#[global] Instance float64_eq_dec : EqDecision float64.
Proof. solve_decision. Defined.

Definition is_nan (x : float64) : bool :=
  match x with NaN => true | _ => false end.

(** NumPy arithmetic never raises: an invalid operation gives NaN and a
    division of a non-zero value by zero gives an infinity. *)
Definition np_add (x y : float64) : float64 :=
  match x, y with
  | NaN, _ | _, NaN => NaN
  | Fin a, Fin b => Fin (a + b)
  | Fin _, Inf s | Inf s, Fin _ => Inf s
  | Inf s, Inf t => if bool_decide (s = t) then Inf s else NaN
  end.

Definition np_mul (x y : float64) : float64 :=
  match x, y with
  | NaN, _ | _, NaN => NaN
  | Fin a, Fin b => Fin (a * b)
  | Fin a, Inf s | Inf s, Fin a =>
      if bool_decide (a = 0%R) then NaN else Inf (xorb s (Rltb a 0))
  | Inf s, Inf t => Inf (xorb s t)
  end.

Definition np_div (x y : float64) : float64 :=
  match x, y with
  | NaN, _ | _, NaN => NaN
  | Fin a, Fin b =>
      if bool_decide (b = 0%R)
      then (if bool_decide (a = 0%R) then NaN else Inf (Rltb a 0))
      else Fin (a / b)
  | Fin _, Inf _ => Fin 0
  | Inf s, Fin b => Inf (xorb s (Rltb b 0))
  | Inf _, Inf _ => NaN
  end.

(** [x != 0] on an array element. *)
Definition np_ne0 (x : float64) : bool :=
  match x with
  | Fin a => bool_decide (a ≠ 0%R)
  | _ => true
  end.

(** A boolean array element used as a factor. *)
Definition np_of_bool (m : bool) : float64 := Fin (if m then 1 else 0).

(** [x < y], the only comparison [sorted] uses. *)
Definition np_lt (x y : float64) : bool :=
  match x, y with
  | NaN, _ | _, NaN => false
  | Fin a, Fin b => Rltb a b
  | Fin _, Inf s => negb s
  | Inf s, Fin _ => s
  | Inf s, Inf t => s && negb t
  end.

(** [x >= y] *)
Definition np_ge (x y : float64) : bool :=
  match x, y with
  | NaN, _ | _, NaN => false
  | _, _ => negb (np_lt x y)
  end.

Definition np_sum (xs : list float64) : float64 := foldl np_add (Fin 0) xs.

(** Python-level float division and [math.log]. *)
Definition py_truediv (x y : R) : result R :=
  if bool_decide (y = 0%R) then Raise ZeroDivisionError else Ok (x / y)%R.

Definition math_log (x : R) : result R :=
  if Rltb 0 x then Ok (ln x) else Raise ValueError.

(** ** The index snapshot *)

(** What a statistics dictionary may hold under a key. *)
Inductive pyval : Type :=
  | PyInt (z : Z)
  | PyStr (s : string)
  | PyNone.

(** Arithmetic on an array built from such values: only numbers pass. *)
Definition np_asfloat (v : pyval) : result float64 :=
  match v with
  | PyInt z => Ok (Fin (IZR z))
  | PyStr _ | PyNone => Raise TypeError
  end.

(** A node of the graph built by the authority computation: the graph
    receives document identifiers and index keys alike. *)
Inductive node : Type :=
  | NInt (z : Z)
  | NStr (s : string).

#[global] Instance node_eq_dec : EqDecision node.
Proof. solve_decision. Defined.

#[global] Instance node_countable : Countable node.
Proof.
  refine (inj_countable'
    (λ n, match n with NInt z => inl z | NStr s => inr s end)
    (λ x, match x with inl z => NInt z | inr s => NStr s end) _).
  by intros [].
Defined.

Abbreviation doc_info := (gmap string pyval).
Abbreviation postings := (gmap Z doc_info).
Abbreviation InvertedIndex := (gmap string postings).
Abbreviation DocLengths := (gmap Z Z).
Abbreviation AuthorityScores := (gmap node float64).

Record AdvancedRanking : Type := {
  k1 : R;
  b : R;
  avg_doc_length : R;
  inverted_index : InvertedIndex;
  doc_lengths : DocLengths;
  damping_factor : R;
  content_weight : R;
  pagerank_weight : R;
  page_rank_scores : AuthorityScores;
  k1_plus : R;
  b_plus : R
}.

(** [d[k]] *)
Definition py_getitem {K V} `{Countable K} (d : gmap K V) (k : K) : result V :=
  match d !! k with
  | Some v => Ok v
  | None => Raise KeyError
  end.

(** [np.vectorize(f)(xs)]: refuses an input of size 0, since no output
    type is given. *)
Definition np_vectorize {A B} (f : A → result B) (xs : list A) : result (list B) :=
  match xs with
  | [] => Raise ValueError
  | _ => mapM f xs
  end.

(** ** The relevance scorer *)

Definition calculate_idf (self : AdvancedRanking) (term : string) : result R :=
  let num_docs_with_term := size (default ∅ (inverted_index self !! term)) in
  let num_docs := size (doc_lengths self) in
  q ← py_truediv (IZR (Z.of_nat num_docs - Z.of_nat num_docs_with_term) + 0.5)
                 (IZR (Z.of_nat num_docs_with_term) + 0.5);
  math_log (q + 1.0).

Definition calculate_tf (self : AdvancedRanking) (term : string) (doc_id : Z) : pyval :=
  let info := default ∅ (default ∅ (inverted_index self !! term) !! doc_id) in
  default (PyInt 0) (info !! "frequency").

(** The length normaliser [k * (1 - b + b * (len / (avg + 1e-6)))] of one
    array element. *)
Definition bm25_norm (self : AdvancedRanking) (k b' : R) (len : Z) : float64 :=
  np_mul (Fin k)
    (np_add (Fin (1 - b'))
       (np_mul (Fin b') (np_div (Fin (IZR len)) (Fin (avg_doc_length self + 1e-6))))).

(** The body shared, word for word, by [calculate_bm25_score] (with
    [k1], [b]) and [calculate_bm25_plus_score] (with [k1_plus],
    [b_plus]). *)
Definition bm25_body (self : AdvancedRanking) (k b' : R)
    (query_terms : list string) (doc_id : Z) : result float64 :=
  idfs ← np_vectorize (calculate_idf self) query_terms;
  let tfs := (λ term, calculate_tf self term doc_id) <$> query_terms in
  lens ← mapM (λ _, py_getitem (doc_lengths self) doc_id) query_terms;
  tfs ← mapM np_asfloat tfs;
  let numerators := (λ tf, np_mul tf (Fin (k + 1))) <$> tfs in
  let denominators := zip_with (λ tf len, np_add tf (bm25_norm self k b' len)) tfs lens in
  let non_zero_denominators := np_ne0 <$> denominators in
  let ratios := zip_with np_div numerators denominators in
  let masked := zip_with (λ r m, np_mul r (np_of_bool m)) ratios non_zero_denominators in
  Ok (np_sum (zip_with (λ idf x, np_mul (Fin idf) x) idfs masked)).

Definition calculate_bm25_score (self : AdvancedRanking)
    (query_terms : list string) (doc_id : Z) : result float64 :=
  bm25_body self (k1 self) (b self) query_terms doc_id.

Definition calculate_bm25_plus_score (self : AdvancedRanking)
    (query_terms : list string) (doc_id : Z) : result float64 :=
  bm25_body self (k1_plus self) (b_plus self) query_terms doc_id.

(** ** Sorting as [sorted] does it

    [sorted] is stable and compares with [<] only.  An insertion sort
    with these two properties returns what [sorted] returns whenever
    [<] orders the keys totally. With [reverse=True] the elements are
    ordered by decreasing key and elements with equal keys keep their
    original order. *)

Fixpoint insert_by {A} (lt : A → A → bool) (x : A) (l : list A) : list A :=
  match l with
  | [] => [x]
  | y :: l' => if lt y x then y :: insert_by lt x l' else x :: y :: l'
  end.

Definition py_sorted {A K} (lt : K → K → bool) (key : A → K) (reverse : bool)
    (l : list A) : list A :=
  foldr (insert_by (λ y x, if reverse then lt (key x) (key y) else lt (key y) (key x))) [] l.

(** ** The authority computation *)

Definition is_int (n : node) : bool := match n with NInt _ => true | NStr _ => false end.

Definition node_lt (m n : node) : bool :=
  match m, n with
  | NInt x, NInt y => bool_decide (x < y)%Z
  | NStr s, NStr t => String.ltb s t
  | _, _ => false
  end.

(** [sorted(graph.nodes())]: integers and strings do not compare. *)
Definition sorted_nodes (ns : list node) : result (list node) :=
  if forallb is_int ns || forallb (λ n, negb (is_int n)) ns
  then Ok (py_sorted node_lt (λ n, n) false ns)
  else Raise TypeError.

(** The edges added by the two nested loops over the inverted index. *)
Definition graph_edges (idx : InvertedIndex) : list (node * node) :=
  '(doc_id, links) ← map_to_list idx;
  '(link_id, _) ← map_to_list links;
  [(NStr doc_id, NInt link_id)].

Definition graph_nodes (idx : InvertedIndex) (dl : DocLengths) : gset node :=
  list_to_set (NInt <$> (map_to_list dl).*1)
  ∪ list_to_set ((graph_edges idx).*1 ++ (graph_edges idx).*2).

Definition adjacency_matrix (edges : list (node * node)) (nodelist : list node)
    : list (list R) :=
  (λ u, (λ v, if bool_decide ((u, v) ∈ edges) then 1%R else 0%R) <$> nodelist) <$> nodelist.

Section ranking.

(** The sparse eigen solver, applied to the adjacency matrix: it
    stands for [eigs(matrix.T, k=1, which='LR')], the in-place
    normalisation by the sum and [.real].  It may raise. *)
Variable eigs : list (list R) → result (list float64).

(** [expand_query] relies on a language model and on a thesaurus. *)
Variable expand_query : string → list string.

Definition page_rank_body (idx : InvertedIndex) (dl : DocLengths)
    : result AuthorityScores :=
  if bool_decide (idx = ∅) then Ok ∅ else
  let nodes := graph_nodes idx dl in
  let edges := graph_edges idx in
  if bool_decide (nodes = ∅) || bool_decide (edges = []) then Ok ∅ else
  nodelist ← sorted_nodes (elements nodes);
  scores ← eigs (adjacency_matrix edges nodelist);
  Ok (list_to_map (zip nodelist scores)).

Definition calculate_page_rank_scores_scipy (idx : InvertedIndex) (dl : DocLengths)
    : AuthorityScores :=
  try_except (page_rank_body idx dl) ∅.

(** The collaborator [Indexing], as far as the constructor uses it. *)
Record Indexing : Type := {
  calculate_avg_doc_length : R;
  get_inverted_index_and_doc_lengths : InvertedIndex * DocLengths
}.

(** [__init__] *)
Definition init (indexer : Indexing) (k1 b damping_factor content_weight
    pagerank_weight k1_plus b_plus : R) : AdvancedRanking :=
  let '(idx, dl) := get_inverted_index_and_doc_lengths indexer in
  {| k1 := k1; b := b;
     avg_doc_length := calculate_avg_doc_length indexer;
     inverted_index := idx; doc_lengths := dl;
     damping_factor := damping_factor;
     content_weight := content_weight;
     pagerank_weight := pagerank_weight;
     page_rank_scores := calculate_page_rank_scores_scipy idx dl;
     k1_plus := k1_plus; b_plus := b_plus |}.

Definition init_default (indexer : Indexing) : AdvancedRanking :=
  init indexer 1.5 0.75 0.85 0.7 0.3 1.8 0.5.

Definition combine_scores (self : AdvancedRanking) (content_score pagerank_score : float64)
    : float64 :=
  np_add (np_mul (Fin (content_weight self)) content_score)
         (np_mul (Fin (pagerank_weight self)) pagerank_score).

(** One turn of the loop over [as_completed(futures)]. *)
Definition collect_score (self : AdvancedRanking) (query_terms : list string)
    (doc_id : Z) : result (Z * float64) :=
  bm25_score ← calculate_bm25_plus_score self query_terms doc_id;
  let pagerank_score := default (Fin 0) (page_rank_scores self !! NInt doc_id) in
  Ok (doc_id, combine_scores self bm25_score pagerank_score).

(** The order in which [as_completed] yields the futures is the
    scheduler's: an execution is given by [completed], a permutation
    of the submitted document identifiers. *)
Definition schedule (self : AdvancedRanking) (completed : list Z) : Prop :=
  completed ≡ₚ (map_to_list (doc_lengths self)).*1.

Definition rank_documents (self : AdvancedRanking) (completed : list Z)
    (query : string) : result (list (Z * float64)) :=
  let query_terms := expand_query query in
  scores ← mapM (collect_score self query_terms) completed;
  Ok (py_sorted np_lt snd true scores).

End ranking.

(** ** Notions used to state the properties *)

(** The value of a result, for statements about calls known to return. *)
Definition value_or {A} (d : A) (r : result A) : A := try_except r d.

(** The value [ln((N - n + 0.5) / (n + 0.5) + 1.0)]. *)
Definition idf_value (N n : nat) : R :=
  ln ((INR N - INR n + 0.5) / (INR n + 0.5) + 1.0).

Definition num_docs_with_term (self : AdvancedRanking) (term : string) : nat :=
  size (default ∅ (inverted_index self !! term)).

(** The frequency of a term as an array element, when it is a number. *)
Definition tf_value (self : AdvancedRanking) (term : string) (doc_id : Z) : float64 :=
  match calculate_tf self term doc_id with
  | PyInt z => Fin (IZR z)
  | _ => NaN
  end.

Definition numeric_tf (self : AdvancedRanking) (term : string) (doc_id : Z) : Prop :=
  ∃ z, calculate_tf self term doc_id = PyInt z.

Definition bm25_denominator (self : AdvancedRanking) (k b' : R) (len : Z)
    (tf : float64) : float64 :=
  np_add tf (bm25_norm self k b' len).

(** What one query term adds to the sum. *)
Definition bm25_term (self : AdvancedRanking) (k b' : R) (len : Z)
    (idf : R) (tf : float64) : float64 :=
  let den := bm25_denominator self k b' len tf in
  np_mul (Fin idf)
    (np_mul (np_div (np_mul tf (Fin (k + 1))) den) (np_of_bool (np_ne0 den))).

Definition term_score (self : AdvancedRanking) (k b' : R) (len : Z) (doc_id : Z)
    (term : string) : float64 :=
  bm25_term self k b' len
    (idf_value (size (doc_lengths self)) (num_docs_with_term self term))
    (tf_value self term doc_id).

(** The scorers on finite values: an integer frequency, the real length
    normaliser, the term of the sum and the sum itself. *)
Definition tf_int (self : AdvancedRanking) (term : string) (doc_id : Z) : Z :=
  match calculate_tf self term doc_id with
  | PyInt z => z
  | _ => 0
  end.

Definition norm_value (self : AdvancedRanking) (k b' : R) (len : Z) : R :=
  k * (1 - b' + b' * (IZR len / (avg_doc_length self + 1e-6))).

Definition term_value (self : AdvancedRanking) (k b' : R) (len : Z) (doc_id : Z)
    (term : string) : R :=
  idf_value (size (doc_lengths self)) (num_docs_with_term self term)
  * (IZR (tf_int self term doc_id) * (k + 1)
     / (IZR (tf_int self term doc_id) + norm_value self k b' len)).

Definition score_value (self : AdvancedRanking) (k b' : R) (len : Z) (doc_id : Z)
    (query_terms : list string) : R :=
  foldr Rplus 0%R (term_value self k b' len doc_id <$> query_terms).

(** Every query term has an integer frequency and a non-zero
    denominator for the document. *)
Definition finite_terms (self : AdvancedRanking) (k b' : R) (len : Z) (doc_id : Z)
    (query_terms : list string) : Prop :=
  ∀ u, u ∈ query_terms →
    numeric_tf self u doc_id
    ∧ (IZR (tf_int self u doc_id) + norm_value self k b' len ≠ 0)%R.

(** The snapshot that differs from [self] only in the frequency recorded
    for [term] in document [doc_id]. *)
Definition set_frequency (self : AdvancedRanking) (term : string) (doc_id : Z) (f : Z)
    : AdvancedRanking :=
  let posts := default ∅ (inverted_index self !! term) in
  let info := default ∅ (posts !! doc_id) in
  {| k1 := k1 self; b := b self; avg_doc_length := avg_doc_length self;
     inverted_index :=
       <[term := <[doc_id := <["frequency" := PyInt f]> info]> posts]> (inverted_index self);
     doc_lengths := doc_lengths self;
     damping_factor := damping_factor self;
     content_weight := content_weight self;
     pagerank_weight := pagerank_weight self;
     page_rank_scores := page_rank_scores self;
     k1_plus := k1_plus self; b_plus := b_plus self |}.

(** The ranking order of the specification: scores never increase along
    the sequence, and of two entries with the same score the one with
    the smaller document identifier comes first. *)
Definition non_increasing (res : list (Z * float64)) : Prop :=
  StronglySorted (λ p q, np_ge p.2 q.2 = true) res.

Definition ties_by_ascending_id (res : list (Z * float64)) : Prop :=
  ∀ i j p q, i < j → res !! i = Some p → res !! j = Some q →
             p.2 = q.2 → (p.1 < q.1)%Z.

Definition no_nan (res : list (Z * float64)) : Prop :=
  Forall (λ p, is_nan p.2 = false) res.

(** The entries of a sequence that carry the score [s], in order. *)
Definition with_score (s : float64) (res : list (Z * float64)) : list (Z * float64) :=
  filter (λ p, p.2 = s) res.

(** [rank_documents] with the authority of every document taken as 0. *)
Definition rank_without_authority (expand_query : string → list string)
    (self : AdvancedRanking) (completed : list Z) (query : string)
    : result (list (Z * float64)) :=
  scores ← mapM (λ doc_id,
                   s ← calculate_bm25_plus_score self (expand_query query) doc_id;
                   Ok (doc_id, combine_scores self s (Fin 0))) completed;
  Ok (py_sorted np_lt snd true scores).

(** ** Sample snapshots *)

(** A ranker over a snapshot whose documents have ten tokens on
    average, with the tunables of both scorers set to [k] and [b'], the
    default weights and no authority scores. *)
Definition ranker_of (idx : InvertedIndex) (dl : DocLengths) (k b' : R)
    : AdvancedRanking :=
  {| k1 := k; b := b'; avg_doc_length := 10;
     inverted_index := idx; doc_lengths := dl;
     damping_factor := 0.85; content_weight := 0.7; pagerank_weight := 0.3;
     page_rank_scores := ∅;
     k1_plus := k; b_plus := b' |}.

(** A query expansion that keeps the query as its only term. *)
Definition expand_single (query : string) : list string := [query].

(** A solver that fails on every matrix. *)
Definition eigs_failing (m : list (list R)) : result (list float64) := Raise SolverError.

(** Documents of ten tokens each; the term [cat] occurs twice in
    document 1 and nowhere else. *)
Definition cat_index : InvertedIndex :=
  {[ "cat" := {[ 1%Z := {[ "frequency" := PyInt 2 ]} ]} ]}.

Definition two_lengths : DocLengths := {[ 1%Z := 10%Z; 2%Z := 10%Z ]}.

Definition three_lengths : DocLengths :=
  {[ 1%Z := 10%Z; 2%Z := 10%Z; 3%Z := 10%Z ]}.

(** With the default tunables of the plus variant, of the plain
    scorer, and with an empty inverted index. *)
Definition sample2 : AdvancedRanking := ranker_of cat_index two_lengths 1.8 0.5.
Definition sample3 : AdvancedRanking := ranker_of cat_index three_lengths 1.8 0.5.
Definition sample_plain : AdvancedRanking := ranker_of cat_index three_lengths 1.5 0.75.
Definition sample_bare : AdvancedRanking := ranker_of ∅ three_lengths 1.8 0.5.

(** The combined scores of a sample ranker for the query [cat], in the
    order in which the tasks complete. *)
Definition cat_scores (self : AdvancedRanking) (completed : list Z) : list (Z * float64) :=
  (λ d, (d, Fin (0.7 * score_value self 1.8 0.5 10 d ["cat"] + 0.3 * 0))) <$> completed.

(** The statistics of document 2 lack a usable frequency. *)
Definition malformed_index : InvertedIndex :=
  {[ "cat" := {[ 1%Z := {[ "frequency" := PyInt 2 ]};
                 2%Z := {[ "frequency" := PyNone ]} ]} ]}.

Definition malformed2 : AdvancedRanking := ranker_of malformed_index two_lengths 1.8 0.5.

(** Statistics for a document that [doc_lengths] does not know. *)
Definition orphan_index : InvertedIndex :=
  {[ "cat" := {[ 99%Z := {[ "frequency" := PyInt 3 ]} ]} ]}.

(** Two documents of 4 and 16 tokens; [cat] occurs once in the first.
    The ranker has [k1 = 1] and [b = 2]. *)
Definition one_cat_index : InvertedIndex :=
  {[ "cat" := {[ 1%Z := {[ "frequency" := PyInt 1 ]} ]} ]}.
Definition uneven_lengths : DocLengths := {[ 1%Z := 4%Z; 2%Z := 16%Z ]}.
Definition steep : AdvancedRanking := ranker_of one_cat_index uneven_lengths 1 2.

(** Two documents, the second one empty, under [k1 = 1.5] and [b = 1]. *)
Definition with_empty_document : AdvancedRanking :=
  ranker_of cat_index {[ 1%Z := 20%Z; 2%Z := 0%Z ]} 1.5 1.

(** ** Query expansion and augmentation *)

Section language.

(** The language model on a query, as the texts of its tokens, and the
    thesaurus on a term, as the lemma names of each of its synsets. *)
Variable nlp : string → list string.
Variable wordnet_synsets : string → list (list string).

(** [re.findall(r'\b\w+\b', text)] *)
Variable re_findall_words : string → list string.

Definition get_synonyms (term : string) : list string :=
  let synonyms : gset string :=
    foldl (λ synonyms syn, foldl (λ synonyms lemma, synonyms ∪ {[lemma]}) synonyms syn)
          ∅ (wordnet_synsets term) in
  elements synonyms.

Definition expand_query (query : string) : list string :=
  let expanded_query : gset string :=
    foldl (λ expanded_query token,
             (expanded_query ∪ {[token]}) ∪ list_to_set (get_synonyms token))
          ∅ (nlp query) in
  elements expanded_query.

Definition tokenize_with_phrases (text : string) : list string :=
  let tokens : gset string := list_to_set (re_findall_words text) in
  elements tokens.

(** [Counter(xs)] *)
Definition Counter (xs : list string) : gmap string nat :=
  foldl (λ c x, <[x := S (default 0 (c !! x))]> c) ∅ xs.

Definition improved_phrase_matching (query_terms : list string) (doc_text : string) : nat :=
  let doc_tokens := tokenize_with_phrases doc_text in
  let phrase_counter := Counter doc_tokens in
  sum_list ((λ term, default 0 (phrase_counter !! term)) <$> query_terms).

End language.

(** [int(x)] on a finite float: the integer part, towards zero. *)
Definition py_int (x : R) : Z :=
  if Rle_dec 0 x then Int_part x else (- Int_part (- x))%Z.

(** [[x] * n]: no copy at all when [n <= 0]. *)
Definition py_repeat {A} (x : A) (n : Z) : list A := replicate (Z.to_nat n) x.

Definition apply_boosting (query_terms : list string) (boost_terms : gmap string R)
    : list string :=
  foldl (λ boosted_query term,
           match boost_terms !! term with
           | Some m => boosted_query ++ py_repeat term (py_int m)
           | None => boosted_query ++ [term]
           end) [] query_terms.

Definition exact_match_boosting (query_terms exact_match_terms : list string)
    : list string :=
  foldl (λ boosted_query term,
           if bool_decide (term ∈ exact_match_terms)
           then boosted_query ++ py_repeat term 3
           else boosted_query ++ [term]) [] query_terms.

(** [s.replace(old, new)] for a non-empty [old]: the occurrences of
    [old] are replaced from left to right, and the scan resumes after
    each replaced occurrence ([skip] counts what is left of it). *)
Fixpoint str_replace_from (old new : string) (skip : nat) (s : string) : string :=
  match s with
  | EmptyString => EmptyString
  | String c s' =>
      match skip with
      | S n => str_replace_from old new n s'
      | O =>
          if String.prefix old s
          then new +:+ str_replace_from old new (String.length old - 1) s'
          else String c (str_replace_from old new 0 s')
      end
  end.

Definition str_replace (old new s : string) : string := str_replace_from old new 0 s.

(** [s.count(sub)] for a non-empty [sub], scanning the same way. *)
Fixpoint str_count_from (sub : string) (skip : nat) (s : string) : nat :=
  match s with
  | EmptyString => 0
  | String c s' =>
      match skip with
      | S n => str_count_from sub n s'
      | O =>
          if String.prefix sub s
          then S (str_count_from sub (String.length sub - 1) s')
          else str_count_from sub 0 s'
      end
  end.

Definition str_count (sub s : string) : nat := str_count_from sub 0 s.

Definition query_rewriting (query : string) : string :=
  str_replace "important_term" "important_term OR synonym1 OR synonym2" query.

Definition get_related_terms (term : string) : list string := [].

Definition concept_based_search (self : AdvancedRanking) (query_terms : list string)
    (doc_id : Z) : Z :=
  foldl (λ score term,
           foldl (λ score related_term,
                    if bool_decide (is_Some (inverted_index self !! related_term))
                       && bool_decide (is_Some (default ∅ (inverted_index self !! related_term)
                                                !! doc_id))
                    then (score + 1)%Z else score)
                 score (get_related_terms term))
        0%Z query_terms.

(** The two scorers, by variant, with the tunables each one reads. *)
Inductive bm25_variant : Type := Bm25 | Bm25Plus.

Definition scorer (v : bm25_variant)
    : AdvancedRanking → list string → Z → result float64 :=
  match v with
  | Bm25 => calculate_bm25_score
  | Bm25Plus => calculate_bm25_plus_score
  end.

Definition k_of (v : bm25_variant) (self : AdvancedRanking) : R :=
  match v with Bm25 => k1 self | Bm25Plus => k1_plus self end.

Definition b_of (v : bm25_variant) (self : AdvancedRanking) : R :=
  match v with Bm25 => b self | Bm25Plus => b_plus self end.

(** The sum of the inverse document frequencies of the query terms. *)
Definition idf_total (self : AdvancedRanking) (query_terms : list string) : R :=
  foldr Rplus 0%R
    ((λ t, idf_value (size (doc_lengths self)) (num_docs_with_term self t)) <$> query_terms).

(** How often [t] stands in a sequence of terms. *)
Definition occurrences (t : string) (l : list string) : nat :=
  length (filter (t =.) l).

(** The copies that [apply_boosting] makes of one term. *)
Definition boost_copies (boost_terms : gmap string R) (term : string) : nat :=
  match boost_terms !! term with
  | Some m => Z.to_nat (py_int m)
  | None => 1
  end.

(** [sub] occurs in [s]. *)
Definition occurs (sub s : string) : Prop :=
  ∃ pre post, s = pre +:+ sub +:+ post.

(** An integer that NumPy stores as a 64-bit integer. *)
Definition fits_int64 (z : Z) : Prop := (- 2 ^ 63 <= z < 2 ^ 63)%Z.

(** * Properties *)

(** ** The error monad and the array helpers *)

Lemma mapM_cons {A B} (f : A → result B) (x : A) (l : list A) :
  mapM f (x :: l) = (y ← f x; k ← mapM f l; Ok (y :: k)).
Proof. done. Qed.

Lemma mapM_ext {A B} (f g : A → result B) (l : list A) :
  (∀ x, f x = g x) → mapM f l = mapM g l.
Proof. intros Hfg. induction l as [|x l IH]; [done|]. cbn. by rewrite Hfg, IH. Qed.

Lemma mapM_Ok {A B} (f : A → result B) (g : A → B) (l : list A) :
  (∀ x, x ∈ l → f x = Ok (g x)) → mapM f l = Ok (g <$> l).
Proof.
  induction l as [|x l IH]; intros Hf; [done|].
  cbn. rewrite (Hf x) by left. cbn.
  rewrite IH; [done|]. intros y Hy. apply Hf. by right.
Qed.

Lemma mapM_Raise {A B} (f : A → result B) (l : list A) x e :
  x ∈ l → f x = Raise e →
  ∃ y e', y ∈ l ∧ f y = Raise e' ∧ mapM f l = Raise e'.
Proof.
  induction l as [|y l IH]; intros Hx Hfx; [by apply elem_of_nil in Hx|].
  cbn. destruct (f y) as [v|e1] eqn:Hy; cbn.
  - apply elem_of_cons in Hx as [->|Hx]; [congruence|].
    destruct (IH Hx Hfx) as (z & e' & Hz & Hfz & ->).
    exists z, e'. split_and!; [by right|done..].
  - exists y, e1. split_and!; [by left|done..].
Qed.

Lemma mapM_Raise_same {A B} (f : A → result B) (l : list A) x e :
  (∀ y e', f y = Raise e' → e' = e) →
  x ∈ l → f x = Raise e → mapM f l = Raise e.
Proof.
  intros Hsame. induction l as [|y l IH]; intros Hx Hfx; [by apply elem_of_nil in Hx|].
  cbn. destruct (f y) as [v|e1] eqn:Hy; cbn; [|by rewrite (Hsame y e1)].
  apply elem_of_cons in Hx as [->|Hx]; [congruence|].
  by rewrite IH.
Qed.

Lemma mapM_Ok_inv {A B} (f : A → result B) (l : list A) (k : list B) :
  mapM f l = Ok k → Forall2 (λ x y, f x = Ok y) l k.
Proof.
  revert k. induction l as [|x l IH]; intros k; cbn.
  - intros [= <-]. constructor.
  - destruct (f x) as [y|] eqn:Hx; cbn; [|done].
    destruct (mapM f l) as [k'|] eqn:Hl; cbn; [|done].
    intros [= <-]. constructor; auto.
Qed.

Lemma np_vectorize_Ok {A B} (f : A → result B) (g : A → B) (l : list A) :
  l ≠ [] → (∀ x, x ∈ l → f x = Ok (g x)) → np_vectorize f l = Ok (g <$> l).
Proof. destruct l; [done|]. intros _. apply mapM_Ok. Qed.

Lemma Rltb_true x y : (x < y)%R → Rltb x y = true.
Proof. unfold Rltb. by destruct (Rlt_dec x y). Qed.

Lemma Rltb_false x y : (y <= x)%R → Rltb x y = false.
Proof. unfold Rltb. destruct (Rlt_dec x y); [lra|done]. Qed.

Lemma np_add_NaN_r x : np_add x NaN = NaN.
Proof. by destruct x. Qed.

Lemma np_mul_NaN_r x : np_mul x NaN = NaN.
Proof. by destruct x. Qed.

Lemma np_sum_NaN xs : NaN ∈ xs → np_sum xs = NaN.
Proof.
  unfold np_sum. generalize (Fin 0).
  induction xs as [|x xs IH]; intros acc Hin; [by apply elem_of_nil in Hin|].
  apply elem_of_cons in Hin as [<-|Hin]; cbn.
  - rewrite np_add_NaN_r. clear. induction xs as [|y ys IH]; [done|].
    cbn. exact IH.
  - by apply IH.
Qed.

(** The sum of finite elements is the finite sum. *)
Lemma np_sum_Fin (rs : list R) :
  np_sum (Fin <$> rs) = Fin (foldr Rplus 0%R rs).
Proof.
  unfold np_sum.
  assert (∀ acc, foldl np_add (Fin acc) (Fin <$> rs) = Fin (acc + foldr Rplus 0%R rs)) as H.
  { induction rs as [|r rs IH]; intros acc; cbn.
    - f_equal. lra.
    - rewrite IH. f_equal. lra. }
  rewrite H. f_equal. lra.
Qed.

(** ** Inverse document frequency *)

Lemma idf_argument (N n : nat) :
  ((INR N - INR n + 0.5) / (INR n + 0.5) + 1.0 = (INR N + 1) / (INR n + 0.5))%R.
Proof.
  pose proof (pos_INR n) as Hn.
  replace 0.5%R with (/ 2)%R by lra. replace 1.0%R with 1%R by lra.
  field. lra.
Qed.

Lemma calculate_idf_eq self term :
  calculate_idf self term
  = Ok (idf_value (size (doc_lengths self)) (num_docs_with_term self term)).
Proof.
  unfold calculate_idf, idf_value, num_docs_with_term.
  set (N := size (doc_lengths self)).
  set (n := size (default ∅ (inverted_index self !! term))).
  pose proof (pos_INR n) as Hn. pose proof (pos_INR N) as HN.
  rewrite minus_IZR, <- !INR_IZR_INZ.
  unfold py_truediv. rewrite bool_decide_eq_false_2 by lra. cbn.
  unfold math_log. rewrite Rltb_true; [done|].
  rewrite idf_argument. apply Rdiv_lt_0_compat; lra.
Qed.

Lemma idf_value_pos (N n : nat) : n ≤ N → (0 < idf_value N n)%R.
Proof.
  intros Hle. unfold idf_value. rewrite idf_argument.
  apply le_INR in Hle. pose proof (pos_INR n).
  rewrite <- ln_1. apply ln_increasing; [lra|].
  apply Rmult_lt_reg_r with (INR n + 0.5)%R; [lra|].
  unfold Rdiv. rewrite Rmult_assoc, Rinv_l by lra. lra.
Qed.

Lemma idf_value_nonneg (N n : nat) : n ≤ N → (0 <= idf_value N n)%R.
Proof. intros Hle. by apply Rlt_le, idf_value_pos. Qed.

Lemma idf_value_decreasing (N n1 n2 : nat) :
  n1 < n2 → (idf_value N n2 < idf_value N n1)%R.
Proof.
  intros Hlt. unfold idf_value. rewrite !idf_argument.
  apply lt_INR in Hlt. pose proof (pos_INR n1). pose proof (pos_INR N).
  apply ln_increasing.
  - apply Rdiv_lt_0_compat; lra.
  - unfold Rdiv. apply Rmult_lt_compat_l; [lra|].
    apply Rinv_lt_contravar; [|lra]. apply Rmult_lt_0_compat; lra.
Qed.

(** C7. For every term, [calculate_idf] returns
    [ln((N - n_t + 0.5) / (n_t + 0.5) + 1.0)], with [N] the number of
    documents of [doc_lengths] and [n_t] the number of documents listed
    for the term; when [n_t <= N] that value is non-negative; and for a
    term that the index does not list ([n_t = 0]) the value is
    returned all the same. *)
Theorem calculate_idf_spec (self : AdvancedRanking) (term : string) :
  let N := size (doc_lengths self) in
  let n_t := size (default ∅ (inverted_index self !! term)) in
  calculate_idf self term
    = Ok (ln ((INR N - INR n_t + 0.5) / (INR n_t + 0.5) + 1.0))
  ∧ (n_t ≤ N → ∃ v, calculate_idf self term = Ok v ∧ (0 <= v)%R)
  ∧ (inverted_index self !! term = None →
       calculate_idf self term = Ok (ln ((INR N - 0 + 0.5) / (0 + 0.5) + 1.0))).
Proof.
  intros N n_t. split_and!.
  - apply calculate_idf_eq.
  - intros Hle. eexists. split; [apply calculate_idf_eq|].
    by apply idf_value_nonneg.
  - intros Hnone. rewrite calculate_idf_eq.
    unfold idf_value, num_docs_with_term. rewrite Hnone. cbn.
    by rewrite map_size_empty.
Qed.

(** C9. With the number of documents fixed, [calculate_idf] is strictly
    decreasing in the number of documents that list the term. *)
Theorem calculate_idf_strictly_decreasing (self1 self2 : AdvancedRanking)
    (t1 t2 : string) :
  size (doc_lengths self1) = size (doc_lengths self2) →
  num_docs_with_term self1 t1 < num_docs_with_term self2 t2 →
  num_docs_with_term self2 t2 ≤ size (doc_lengths self2) →
  ∃ v1 v2, calculate_idf self1 t1 = Ok v1 ∧ calculate_idf self2 t2 = Ok v2
           ∧ (v2 < v1)%R.
Proof.
  intros HN Hlt _. do 2 eexists. split_and!; [apply calculate_idf_eq..|].
  rewrite HN. by apply idf_value_decreasing.
Qed.

(** ** The BM25 scorers, element by element *)

Lemma mapM_fmap {A B C} (f : B → result C) (h : A → B) (l : list A) :
  mapM f (h <$> l) = mapM (λ x, f (h x)) l.
Proof. induction l as [|x l IH]; [done|]. cbn. by rewrite IH. Qed.

Lemma zip_with_fmap_same {A B C D} (f : B → C → D) (g : A → B) (h : A → C) (l : list A) :
  zip_with f (g <$> l) (h <$> l) = (λ x, f (g x) (h x)) <$> l.
Proof. induction l as [|x l IH]; [done|]. cbn. by rewrite IH. Qed.

Lemma bm25_body_Ok self k b' query_terms doc_id len :
  query_terms ≠ [] →
  doc_lengths self !! doc_id = Some len →
  (∀ t, t ∈ query_terms → numeric_tf self t doc_id) →
  bm25_body self k b' query_terms doc_id
  = Ok (np_sum (term_score self k b' len doc_id <$> query_terms)).
Proof.
  intros Hne Hlen Hnum. unfold bm25_body.
  rewrite (np_vectorize_Ok _
    (λ t, idf_value (size (doc_lengths self)) (num_docs_with_term self t)))
    by (auto using calculate_idf_eq).
  cbn. rewrite (mapM_Ok _ (λ _, len)); cycle 1.
  { intros t _. unfold py_getitem. by rewrite Hlen. }
  cbn. rewrite mapM_fmap.
  rewrite (mapM_Ok _ (λ t, tf_value self t doc_id)); cycle 1.
  { intros t Ht. destruct (Hnum t Ht) as [z Hz]. unfold tf_value. by rewrite Hz. }
  cbn. do 2 f_equal.
  rewrite <- list_fmap_compose.
  rewrite !zip_with_fmap_same. rewrite <- list_fmap_compose.
  rewrite !zip_with_fmap_same. done.
Qed.

(** An absent document is reported by the lookup of its length, once a
    query term makes the comprehension run. *)
Lemma bm25_body_KeyError self k b' query_terms doc_id :
  query_terms ≠ [] →
  doc_lengths self !! doc_id = None →
  bm25_body self k b' query_terms doc_id = Raise KeyError.
Proof.
  intros Hne Hnone. unfold bm25_body.
  rewrite (np_vectorize_Ok _
    (λ t, idf_value (size (doc_lengths self)) (num_docs_with_term self t)))
    by (auto using calculate_idf_eq).
  cbn. destruct query_terms as [|t q]; [done|].
  cbn. unfold py_getitem. by rewrite Hnone.
Qed.

Lemma bm25_body_nil self k b' doc_id :
  bm25_body self k b' [] doc_id = Raise ValueError.
Proof. done. Qed.

(** A frequency that is not a number faults the task of that document. *)
Lemma bm25_body_TypeError self k b' query_terms doc_id len t :
  doc_lengths self !! doc_id = Some len →
  t ∈ query_terms →
  ¬ numeric_tf self t doc_id →
  bm25_body self k b' query_terms doc_id = Raise TypeError.
Proof.
  intros Hlen Ht Hbad. unfold bm25_body.
  assert (query_terms ≠ []) as Hne by (intros ->; by apply elem_of_nil in Ht).
  rewrite (np_vectorize_Ok _
    (λ t, idf_value (size (doc_lengths self)) (num_docs_with_term self t)))
    by (auto using calculate_idf_eq).
  cbn. rewrite (mapM_Ok _ (λ _, len)); cycle 1.
  { intros u _. unfold py_getitem. by rewrite Hlen. }
  cbn. rewrite mapM_fmap.
  rewrite (mapM_Raise_same (λ x, np_asfloat (calculate_tf self x doc_id))
             query_terms t TypeError); [done| |done|].
  - intros y e'. by destruct (calculate_tf self y doc_id); intros [= <-].
  - unfold numeric_tf in Hbad.
    destruct (calculate_tf self t doc_id) as [z| |]; [|done..].
    destruct Hbad. by eexists.
Qed.

(** ** The zero-denominator guard *)

Lemma bm25_term_zero_denominator self k b' len idf tf :
  bm25_denominator self k b' len tf = Fin 0 →
  bm25_term self k b' len idf tf = NaN.
Proof.
  intros Hden. unfold bm25_term. rewrite Hden. cbn [np_ne0].
  rewrite bool_decide_eq_false_2 by (intros H; by apply H).
  unfold np_of_bool.
  assert (np_mul (np_div (np_mul tf (Fin (k + 1))) (Fin 0)) (Fin 0) = NaN) as ->;
    [|done].
  destruct (np_mul tf (Fin (k + 1))) as [a|s|]; cbn; [| |done].
  - rewrite bool_decide_eq_true_2 by done.
    destruct (bool_decide (a = 0%R)); cbn; [done|].
    by rewrite bool_decide_eq_true_2.
  - by rewrite bool_decide_eq_true_2.
Qed.

(** As soon as one query term has a zero denominator, the score is NaN:
    the mask multiplies the quotient after the division has been made. *)
Lemma zero_denominator_poisons_score self k b' query_terms doc_id len t :
  doc_lengths self !! doc_id = Some len →
  (∀ u, u ∈ query_terms → numeric_tf self u doc_id) →
  t ∈ query_terms →
  bm25_denominator self k b' len (tf_value self t doc_id) = Fin 0 →
  bm25_body self k b' query_terms doc_id = Ok NaN.
Proof.
  intros Hlen Hnum Ht Hden.
  rewrite (bm25_body_Ok _ _ _ _ _ len); [|by intros ->; apply elem_of_nil in Ht|done..].
  f_equal. apply np_sum_NaN. apply list_elem_of_fmap. exists t. split; [|done].
  unfold term_score. by rewrite bm25_term_zero_denominator.
Qed.

Lemma calculate_tf_absent self term doc_id :
  default ∅ (inverted_index self !! term) !! doc_id = None →
  calculate_tf self term doc_id = PyInt 0.
Proof. unfold calculate_tf. by intros ->. Qed.

Lemma calculate_tf_not_listed self term doc_id (posts : postings) :
  inverted_index self !! term = Some posts →
  posts !! doc_id = None →
  calculate_tf self term doc_id = PyInt 0.
Proof. intros Hposts Hdoc. apply calculate_tf_absent. by rewrite Hposts. Qed.

(** C3. With [k1 = 0] (and [k1_plus = 0]) a document that does not
    contain the query term has the denominator [0 + 0 * (...) = 0]; the
    quotient [0 / 0] is NaN and stays NaN under the mask, so both
    scorers return NaN where the guard was to make the term add 0. *)
Theorem zero_denominator_score_is_nan :
  bm25_denominator (ranker_of cat_index three_lengths 0 0.75) 0 0.75 10
    (tf_value (ranker_of cat_index three_lengths 0 0.75) "cat" 2) = Fin 0
  ∧ calculate_bm25_score (ranker_of cat_index three_lengths 0 0.75) ["cat"] 2 = Ok NaN
  ∧ calculate_bm25_plus_score (ranker_of cat_index three_lengths 0 0.75) ["cat"] 2 = Ok NaN.
Proof.
  assert (tf_value (ranker_of cat_index three_lengths 0 0.75) "cat" 2 = Fin 0) as Htf.
  { unfold tf_value. by rewrite calculate_tf_absent. }
  assert (bm25_denominator (ranker_of cat_index three_lengths 0 0.75) 0 0.75 10
            (Fin 0) = Fin 0) as Hden.
  { unfold bm25_denominator, bm25_norm. cbn [avg_doc_length ranker_of].
    unfold np_div. rewrite bool_decide_eq_false_2 by lra. cbn. f_equal. lra. }
  rewrite Htf. split; [done|].
  split; apply (zero_denominator_poisons_score _ _ _ _ _ 10%Z "cat");
    try done; try (by rewrite Htf); try (apply list_elem_of_singleton; done);
    intros u ->%list_elem_of_singleton; exists 0%Z; by apply calculate_tf_absent.
Qed.

(** ** Documents that [doc_lengths] does not know *)

(** C10, as the code has it. For a document identifier absent from
    [doc_lengths], both scorers raise instead of returning 0, whatever
    the inverted index holds for it: [KeyError] from the lookup of the
    length when there is at least one query term, and [ValueError] from
    the vectorised idf when there is none (the lookup is then never
    made). *)
Theorem bm25_absent_document (self : AdvancedRanking) (query_terms : list string)
    (doc_id : Z) :
  doc_lengths self !! doc_id = None →
  let fault := match query_terms with [] => ValueError | _ => KeyError end in
  calculate_bm25_score self query_terms doc_id = Raise fault
  ∧ calculate_bm25_plus_score self query_terms doc_id = Raise fault.
Proof.
  intros Hnone. unfold calculate_bm25_score, calculate_bm25_plus_score.
  destruct query_terms as [|t q]; [done|].
  cbn zeta. by rewrite !bm25_body_KeyError.
Qed.

Lemma bm25_absent_document_witness :
  calculate_tf (ranker_of orphan_index three_lengths 1.5 0.75) "cat" 99 = PyInt 3
  ∧ calculate_bm25_score (ranker_of orphan_index three_lengths 1.5 0.75) ["cat"] 99
    = Raise KeyError
  ∧ calculate_bm25_plus_score (ranker_of orphan_index three_lengths 1.5 0.75) ["cat"] 99
    = Raise KeyError.
Proof.
  split; [reflexivity|].
  apply (bm25_absent_document (ranker_of orphan_index three_lengths 1.5 0.75) ["cat"] 99).
  reflexivity.
Defined.

(** With no query term the fault of an absent document is not a lookup
    fault. *)
Lemma empty_query_fault_is_not_KeyError :
  doc_lengths (ranker_of orphan_index three_lengths 1.5 0.75) !! 99%Z = None
  ∧ calculate_bm25_score (ranker_of orphan_index three_lengths 1.5 0.75) [] 99
    = Raise ValueError
  ∧ calculate_bm25_score (ranker_of orphan_index three_lengths 1.5 0.75) [] 99
    ≠ Raise KeyError.
Proof. split_and!; [reflexivity|reflexivity|discriminate]. Qed.

(** ** Faults of scoring tasks *)

Section task_faults.

Variable expand_query : string → list string.

Lemma collect_score_Raise self query_terms doc_id e :
  calculate_bm25_plus_score self query_terms doc_id = Raise e →
  collect_score self query_terms doc_id = Raise e.
Proof. unfold collect_score. by intros ->. Qed.

Lemma collect_score_Ok self query_terms doc_id s :
  calculate_bm25_plus_score self query_terms doc_id = Ok s →
  collect_score self query_terms doc_id
  = Ok (doc_id, combine_scores self s
                  (default (Fin 0) (page_rank_scores self !! NInt doc_id))).
Proof. unfold collect_score. by intros ->. Qed.

(** C4, as the code has it. [future.result()] re-raises the fault of a
    scoring task inside [rank_documents], which has no handler: when
    the task of some document faults, the call returns no ranking and
    ends with the fault of a faulting task. *)
Theorem rank_documents_task_fault (self : AdvancedRanking) (completed : list Z)
    (query : string) (doc_id : Z) (e : exn) :
  doc_id ∈ completed →
  calculate_bm25_plus_score self (expand_query query) doc_id = Raise e →
  ∃ doc_id' e',
    doc_id' ∈ completed
    ∧ calculate_bm25_plus_score self (expand_query query) doc_id' = Raise e'
    ∧ rank_documents expand_query self completed query = Raise e'.
Proof.
  intros Hin Hfault. unfold rank_documents.
  destruct (mapM_Raise (collect_score self (expand_query query))
              completed doc_id e Hin) as (d & e' & Hd & Hfd & ->);
    [by apply collect_score_Raise|].
  exists d, e'. split_and!; [done| |done].
  unfold collect_score in Hfd.
  destruct (calculate_bm25_plus_score self (expand_query query) d) as [s|e1];
    cbn in Hfd; [done|by injection Hfd as ->].
Qed.

End task_faults.

Lemma malformed_task_faults :
  calculate_bm25_plus_score malformed2
    (expand_single "cat") 2 = Raise TypeError.
Proof.
  apply (bm25_body_TypeError _ _ _ _ _ 10%Z "cat"); [reflexivity| |].
  - apply list_elem_of_singleton. reflexivity.
  - intros [z Hz]. discriminate Hz.
Qed.

Lemma rank_documents_task_fault_witness :
  ∃ doc_id' e',
    doc_id' ∈ [1%Z; 2%Z]
    ∧ calculate_bm25_plus_score malformed2 (expand_single "cat") doc_id' = Raise e'
    ∧ rank_documents expand_single malformed2 [1%Z; 2%Z] "cat" = Raise e'.
Proof.
  apply (rank_documents_task_fault expand_single malformed2 [1%Z; 2%Z] "cat" 2 TypeError).
  - apply list_elem_of_In. right. left. reflexivity.
  - exact malformed_task_faults.
Defined.

(** ** Sorting *)

Section insertion.

Context {A : Type} (lt : A → A → bool).

Lemma insert_by_Permutation x l : insert_by lt x l ≡ₚ x :: l.
Proof.
  induction l as [|y l IH]; [done|]. cbn.
  destruct (lt y x); [|done]. rewrite IH. apply perm_swap.
Qed.

Lemma sort_by_Permutation l : foldr (insert_by lt) [] l ≡ₚ l.
Proof.
  induction l as [|x l IH]; [done|]. cbn.
  by rewrite insert_by_Permutation, IH.
Qed.

(** Sortedness, for a relation [R] that the comparison decides on the
    elements satisfying [P]. *)
Context (R : relation A) (P : A → Prop).
Hypothesis lt_R : ∀ x y, P x → P y → lt y x = true → R y x.
Hypothesis nlt_R : ∀ x y, P x → P y → lt y x = false → R x y.
Hypothesis R_trans : ∀ x y z, P x → P y → P z → R x y → R y z → R x z.

Lemma insert_by_sorted x l :
  P x → Forall P l → StronglySorted R l → StronglySorted R (insert_by lt x l).
Proof.
  intros Px. induction l as [|y l IH]; intros HP Hs; cbn.
  - repeat constructor.
  - apply Forall_cons in HP as [Py HP].
    apply StronglySorted_inv in Hs as [Hs Hy].
    destruct (lt y x) eqn:Hlt.
    + constructor; [by apply IH|].
      rewrite insert_by_Permutation. constructor; [by apply lt_R|done].
    + constructor; [by constructor|].
      constructor; [by apply nlt_R|].
      rewrite Forall_forall in Hy, HP. apply Forall_forall. intros z Hz.
      apply (R_trans x y z); auto.
Qed.

Lemma sort_by_sorted l :
  Forall P l → StronglySorted R (foldr (insert_by lt) [] l).
Proof.
  induction l as [|x l IH]; intros HP; cbn; [constructor|].
  apply Forall_cons in HP as [Px HP].
  apply insert_by_sorted; [done| |by apply IH].
  by rewrite sort_by_Permutation.
Qed.

(** Stability: elements that the comparison never separates keep
    their order. *)
Context (Q : A → Prop) `{!∀ x, Decision (Q x)}.
Hypothesis lt_Q : ∀ x y, Q x → Q y → lt y x = false.

Lemma insert_by_filter x l :
  filter Q (insert_by lt x l) = filter Q (x :: l).
Proof.
  induction l as [|y l IH]; [done|]. cbn [insert_by].
  destruct (lt y x) eqn:Hlt; [|done].
  rewrite (filter_cons _ y), IH, !filter_cons.
  destruct (decide (Q x)) as [Qx|]; [|done].
  destruct (decide (Q y)) as [Qy|]; [|done].
  rewrite lt_Q in Hlt; done.
Qed.

Lemma sort_by_filter l :
  filter Q (foldr (insert_by lt) [] l) = filter Q l.
Proof.
  induction l as [|x l IH]; [done|]. cbn [foldr].
  by rewrite insert_by_filter, !filter_cons, IH.
Qed.

End insertion.

(** The order of [float64] values. *)

Lemma np_lt_irrefl x : np_lt x x = false.
Proof.
  destruct x as [a|s|]; cbn; [|by destruct s|done].
  apply Rltb_false. lra.
Qed.

Ltac float64_cases :=
  cbn; unfold Rltb;
  repeat match goal with
         | s : bool |- _ => destruct s
         | |- context [Rlt_dec ?a ?c] => destruct (Rlt_dec a c)
         end;
  cbn; try done; try lra.

Lemma np_lt_asym x y : np_lt x y = true → np_lt y x = false.
Proof. destruct x, y; float64_cases. Qed.

Lemma np_ge_of_not_lt x y :
  is_nan x = false → is_nan y = false → np_lt x y = false → np_ge x y = true.
Proof. destruct x, y; cbn; try done; by intros _ _ ->. Qed.

Lemma np_ge_of_lt x y : np_lt x y = true → np_ge y x = true.
Proof. destruct x, y; float64_cases. Qed.

Lemma np_ge_trans x y z : np_ge x y = true → np_ge y z = true → np_ge x z = true.
Proof. destruct x, y, z; float64_cases. Qed.

Lemma np_ge_antisym x y : np_ge x y = true → np_ge y x = true → x = y.
Proof. destruct x, y; float64_cases. intros _ _. f_equal. lra. Qed.

(** [sorted(scores, key=lambda x: x[1], reverse=True)] *)

Lemma sorted_scores_Permutation (scores : list (Z * float64)) :
  py_sorted np_lt snd true scores ≡ₚ scores.
Proof. apply sort_by_Permutation. Qed.

Lemma sorted_scores_non_increasing (scores : list (Z * float64)) :
  no_nan scores → non_increasing (py_sorted np_lt snd true scores).
Proof.
  intros Hnan. unfold non_increasing, py_sorted.
  apply (sort_by_sorted _ _ (λ p, is_nan p.2 = false)); [| | |done].
  - intros x y _ _. apply np_ge_of_lt.
  - intros x y Hx Hy. by apply np_ge_of_not_lt.
  - intros x y z _ _ _. apply np_ge_trans.
Qed.

Lemma sorted_scores_stable (scores : list (Z * float64)) (s : float64) :
  with_score s (py_sorted np_lt snd true scores) = with_score s scores.
Proof.
  unfold with_score, py_sorted. apply sort_by_filter.
  intros x y -> <-. apply np_lt_irrefl.
Qed.

(** ** The scorers on finite values *)

Lemma bm25_norm_Fin self k b' len :
  (avg_doc_length self + 1e-6 ≠ 0)%R →
  bm25_norm self k b' len = Fin (norm_value self k b' len).
Proof.
  intros Havg. unfold bm25_norm, norm_value, np_div.
  by rewrite bool_decide_eq_false_2.
Qed.

Lemma bm25_term_Fin self k b' len idf z :
  (avg_doc_length self + 1e-6 ≠ 0)%R →
  (IZR z + norm_value self k b' len ≠ 0)%R →
  bm25_term self k b' len idf (Fin (IZR z))
  = Fin (idf * (IZR z * (k + 1) / (IZR z + norm_value self k b' len))).
Proof.
  intros Havg Hden. unfold bm25_term, bm25_denominator.
  rewrite bm25_norm_Fin by done. cbn.
  rewrite (bool_decide_eq_true_2 (_ ≠ _)) by done.
  rewrite bool_decide_eq_false_2 by done. cbn.
  f_equal. lra.
Qed.

Lemma term_score_Fin self k b' len doc_id term :
  (avg_doc_length self + 1e-6 ≠ 0)%R →
  numeric_tf self term doc_id →
  (IZR (tf_int self term doc_id) + norm_value self k b' len ≠ 0)%R →
  term_score self k b' len doc_id term = Fin (term_value self k b' len doc_id term).
Proof.
  intros Havg [z Hz] Hden. unfold term_score, term_value, tf_value, tf_int in *.
  rewrite Hz in *. by apply bm25_term_Fin.
Qed.

Lemma bm25_body_Fin self k b' query_terms doc_id len :
  query_terms ≠ [] →
  doc_lengths self !! doc_id = Some len →
  (avg_doc_length self + 1e-6 ≠ 0)%R →
  finite_terms self k b' len doc_id query_terms →
  bm25_body self k b' query_terms doc_id
  = Ok (Fin (score_value self k b' len doc_id query_terms)).
Proof.
  intros Hne Hlen Havg Hfin.
  rewrite (bm25_body_Ok _ _ _ _ _ len); [|done..|intros t Ht; by apply Hfin].
  f_equal. unfold score_value. rewrite <- np_sum_Fin. f_equal.
  rewrite <- list_fmap_compose. apply Forall_fmap_ext_1, Forall_forall.
  intros t Ht. destruct (Hfin t Ht). by rewrite term_score_Fin.
Qed.

Lemma score_value_no_occurrence self k b' len doc_id query_terms :
  (∀ u, u ∈ query_terms → tf_int self u doc_id = 0%Z) →
  score_value self k b' len doc_id query_terms = 0%R.
Proof.
  unfold score_value. induction query_terms as [|u q IH]; intros Hz; [done|].
  cbn. rewrite IH by (intros v Hv; apply Hz; by right).
  unfold term_value. rewrite (Hz u) by left.
  unfold Rdiv. rewrite !Rmult_0_l, Rmult_0_r. lra.
Qed.

(** ** The orchestrator *)

Lemma NoDup_fmap_eq {A B} (f : A → B) (l : list A) x y :
  NoDup (f <$> l) → x ∈ l → y ∈ l → f x = f y → x = y.
Proof.
  induction l as [|z l IH]; cbn; intros Hnd Hx Hy Hxy; [by apply elem_of_nil in Hx|].
  apply NoDup_cons in Hnd as [Hz Hnd].
  apply elem_of_cons in Hx as [->|Hx]; apply elem_of_cons in Hy as [->|Hy]; auto.
  - destruct Hz. rewrite Hxy. by apply list_elem_of_fmap_2.
  - destruct Hz. rewrite <- Hxy. by apply list_elem_of_fmap_2.
Qed.

Lemma mapM_Ok_values {A B} (d : B) (f : A → result B) (l : list A) (k : list B) :
  mapM f l = Ok k →
  k = (λ x, value_or d (f x)) <$> l ∧ ∀ x, x ∈ l → f x = Ok (value_or d (f x)).
Proof.
  revert k. induction l as [|x l IH]; intros k; cbn.
  - intros [= <-]. split; [done|]. intros x Hx. by apply elem_of_nil in Hx.
  - destruct (f x) as [y|] eqn:Hx; cbn; [|done].
    destruct (mapM f l) as [k'|] eqn:Hl; cbn; [|done].
    intros [= <-]. destruct (IH k' eq_refl) as [-> Hall]. split; [done|].
    intros z [->|Hz]%elem_of_cons; [by rewrite Hx|auto].
Qed.

Section orchestrator.

Variable expand_query : string → list string.

Lemma collect_score_fst self query_terms doc_id p :
  collect_score self query_terms doc_id = Ok p → p.1 = doc_id.
Proof.
  unfold collect_score.
  destruct (calculate_bm25_plus_score self query_terms doc_id); cbn; [|done].
  by intros [= <-].
Qed.

Lemma collected_scores_fst self query_terms completed scores :
  mapM (collect_score self query_terms) completed = Ok scores →
  scores.*1 = completed.
Proof.
  intros H%mapM_Ok_inv. induction H as [|d p l k Hd _ IH]; [done|].
  cbn. f_equal; [by eapply collect_score_fst|done].
Qed.

Lemma rank_documents_Ok_inv self completed query res :
  rank_documents expand_query self completed query = Ok res →
  ∃ scores, mapM (collect_score self (expand_query query)) completed = Ok scores
            ∧ res = py_sorted np_lt snd true scores.
Proof.
  unfold rank_documents.
  destruct (mapM _ completed) as [scores|]; cbn; [|done].
  intros [= <-]. by eexists.
Qed.

(** Without a query term every task faults, and so does the call as
    soon as one task has completed. *)
Lemma rank_documents_empty_query self completed query :
  expand_query query = [] → completed ≠ [] →
  rank_documents expand_query self completed query = Raise ValueError.
Proof.
  intros Hq Hc. unfold rank_documents. rewrite Hq.
  destruct completed as [|d l]; [done|].
  rewrite mapM_cons. by rewrite (collect_score_Raise _ _ _ ValueError).
Qed.

(** The call returns as soon as the query has a term, every completed
    task is that of a known document and the frequencies are numbers. *)
Lemma rank_documents_returns self completed query :
  expand_query query ≠ [] →
  (∀ d, d ∈ completed → is_Some (doc_lengths self !! d)) →
  (∀ d t, d ∈ completed → t ∈ expand_query query → numeric_tf self t d) →
  ∃ res, rank_documents expand_query self completed query = Ok res
         ∧ res.*1 ≡ₚ completed.
Proof.
  intros Hne Hknown Hnum.
  assert (∀ d, d ∈ completed →
            ∃ p, collect_score self (expand_query query) d = Ok p) as Hall.
  { intros d Hd. destruct (Hknown d Hd) as [len Hlen].
    eexists. apply collect_score_Ok.
    apply (bm25_body_Ok _ _ _ _ _ len); [done|done|]. intros t Ht. by apply Hnum. }
  assert (∃ scores, mapM (collect_score self (expand_query query)) completed = Ok scores)
    as [scores Hscores].
  { clear Hknown Hnum. induction completed as [|d l IH]; [by eexists|].
    destruct (Hall d ltac:(left)) as [p Hp].
    destruct IH as [k Hk]; [intros x Hx; apply Hall; by right|].
    exists (p :: k). by rewrite mapM_cons, Hp, Hk. }
  exists (py_sorted np_lt snd true scores). split.
  - unfold rank_documents. by rewrite Hscores.
  - rewrite sorted_scores_Permutation. by rewrite (collected_scores_fst _ _ _ _ Hscores).
Qed.

(** C1, as the code has it. The sequence returned by [rank_documents]
    holds one entry per completed task, in non-increasing order of
    combined score as long as no score is NaN; entries with equal
    combined score stand in the order in which their tasks completed
    (the sort is stable and has no second key), not in the order of
    their identifiers. *)
Theorem rank_documents_sorted (self : AdvancedRanking) (completed : list Z)
    (query : string) (res : list (Z * float64)) :
  rank_documents expand_query self completed query = Ok res →
  no_nan res →
  non_increasing res
  ∧ ∃ scores, mapM (collect_score self (expand_query query)) completed = Ok scores
              ∧ scores.*1 = completed
              ∧ res ≡ₚ scores
              ∧ ∀ s, with_score s res = with_score s scores.
Proof.
  intros (scores & Hscores & ->)%rank_documents_Ok_inv Hnan. split.
  - apply sorted_scores_non_increasing.
    unfold no_nan in *. by rewrite <- (sorted_scores_Permutation scores).
  - exists scores. split_and!; [done| | |].
    + by eapply collected_scores_fst.
    + apply sorted_scores_Permutation.
    + intros s. apply sorted_scores_stable.
Qed.

(** C2, as the code has it. Two executions over the same snapshot,
    query and weights, whose tasks complete in different orders,
    return the same sequence whenever no score is NaN and no two
    documents have the same combined score: if one execution returns
    such a sequence, so does the other. *)
Theorem rank_documents_deterministic (self : AdvancedRanking)
    (completed1 completed2 : list Z) (query : string) (res : list (Z * float64)) :
  schedule self completed1 → schedule self completed2 →
  rank_documents expand_query self completed1 query = Ok res →
  no_nan res → NoDup res.*2 →
  rank_documents expand_query self completed2 query = Ok res.
Proof.
  intros Hs1 Hs2 (scores & Hscores & ->)%rank_documents_Ok_inv Hnan Hnd.
  assert (completed1 ≡ₚ completed2) as Hperm by (unfold schedule in *; by rewrite Hs1, Hs2).
  apply (mapM_Ok_values (0%Z, NaN)) in Hscores as [-> Hall].
  set (g := λ x, value_or (0%Z, NaN) (collect_score self (expand_query query) x)) in *.
  unfold rank_documents.
  rewrite (mapM_Ok _ g) by (intros x Hx; apply Hall; by rewrite Hperm).
  cbn. f_equal.
  assert (g <$> completed2 ≡ₚ g <$> completed1) as Hg by (by rewrite Hperm).
  assert (no_nan (g <$> completed1)) as Hnan1.
  { unfold no_nan in *. by rewrite <- (sorted_scores_Permutation (g <$> completed1)). }
  eapply (StronglySorted_unique_strong (λ p q, np_ge p.2 q.2 = true)).
  - intros x1 x2 Hx1 Hx2 H12 H21.
    apply (NoDup_fmap_eq snd (py_sorted np_lt snd true (g <$> completed1))); [done| |done|].
    + rewrite sorted_scores_Permutation in Hx1 |- *.
      by rewrite Hg in Hx1.
    + by apply np_ge_antisym.
  - apply sorted_scores_non_increasing. unfold no_nan in *. by rewrite Hg.
  - by apply sorted_scores_non_increasing.
  - by rewrite !sorted_scores_Permutation.
Qed.

End orchestrator.

(** ** The orchestrator on the sample snapshots *)

Lemma norm_value_nonneg self k b' len :
  (0 <= k)%R → (0 <= b' <= 1)%R → (0 <= len)%Z → (0 <= avg_doc_length self)%R →
  (0 <= norm_value self k b' len)%R.
Proof.
  intros Hk Hb Hlen Havg. unfold norm_value.
  apply IZR_le in Hlen.
  assert (0 <= IZR len / (avg_doc_length self + 1e-6))%R as Hq.
  { apply Rmult_le_pos; [done|]. apply Rlt_le, Rinv_0_lt_compat. lra. }
  apply Rmult_le_pos; [done|].
  assert (0 <= b' * (IZR len / (avg_doc_length self + 1e-6)))%R
    by (apply Rmult_le_pos; lra).
  lra.
Qed.

Lemma norm_value_pos self k b' len :
  (0 < k)%R → (0 <= b' < 1)%R → (0 <= len)%Z → (0 <= avg_doc_length self)%R →
  (0 < norm_value self k b' len)%R.
Proof.
  intros Hk Hb Hlen Havg. unfold norm_value.
  apply IZR_le in Hlen.
  assert (0 <= IZR len / (avg_doc_length self + 1e-6))%R as Hq.
  { apply Rmult_le_pos; [done|]. apply Rlt_le, Rinv_0_lt_compat. lra. }
  apply Rmult_lt_0_compat; [done|].
  assert (0 <= b' * (IZR len / (avg_doc_length self + 1e-6)))%R
    by (apply Rmult_le_pos; lra).
  lra.
Qed.

(** A task of a sample ranker returns a finite combined score. *)
Lemma ranker_of_collect idx dl query_terms doc_id len :
  query_terms ≠ [] →
  dl !! doc_id = Some len → (0 <= len)%Z →
  (∀ u, u ∈ query_terms →
     ∃ z, calculate_tf (ranker_of idx dl 1.8 0.5) u doc_id = PyInt z ∧ (0 <= z)%Z) →
  collect_score (ranker_of idx dl 1.8 0.5) query_terms doc_id
  = Ok (doc_id,
        Fin (0.7 * score_value (ranker_of idx dl 1.8 0.5) 1.8 0.5 len doc_id query_terms
             + 0.3 * 0)).
Proof.
  intros Hne Hlen Hpos Htf. unfold collect_score, calculate_bm25_plus_score.
  cbn [k1_plus b_plus ranker_of].
  rewrite (bm25_body_Fin _ _ _ _ _ len); [done|done|done|cbn [avg_doc_length ranker_of]; lra|].
  intros u Hu. destruct (Htf u Hu) as (z & Hz & Hz0). split; [by exists z|].
  unfold tf_int. rewrite Hz. apply IZR_le in Hz0.
  pose proof (norm_value_pos (ranker_of idx dl 1.8 0.5) 1.8 0.5 len) as Hn.
  cbn [avg_doc_length ranker_of] in Hn.
  assert (0 < norm_value (ranker_of idx dl 1.8 0.5) 1.8 0.5 len)%R
    by (apply Hn; [lra|lra|done|lra]).
  lra.
Qed.

Lemma sample2_dog doc_id :
  doc_id ∈ [1%Z; 2%Z] →
  collect_score sample2 (expand_single "dog") doc_id = Ok (doc_id, Fin 0).
Proof.
  intros Hd. unfold sample2, expand_single.
  assert (two_lengths !! doc_id = Some 10%Z) as Hlen.
  { apply elem_of_cons in Hd as [->|Hd]; [reflexivity|].
    apply list_elem_of_singleton in Hd as ->. reflexivity. }
  rewrite (ranker_of_collect _ _ _ _ 10%Z); [|done|done|done|].
  - rewrite score_value_no_occurrence;
      [by replace (0.7 * 0 + 0.3 * 0)%R with 0%R by lra|].
    intros u ->%list_elem_of_singleton. reflexivity.
  - intros u ->%list_elem_of_singleton. exists 0%Z. split; [reflexivity|done].
Qed.

Lemma sample2_rank_dog completed :
  completed ⊆ [1%Z; 2%Z] →
  rank_documents expand_single sample2 completed "dog"
  = Ok (py_sorted np_lt snd true ((λ d, (d, Fin 0)) <$> completed)).
Proof.
  intros Hsub. unfold rank_documents.
  rewrite (mapM_Ok _ (λ d, (d, Fin 0))); [done|].
  intros d Hd. apply sample2_dog. by apply Hsub.
Qed.

Ltac list_incl :=
  let x := fresh in let Hx := fresh in
  intros x Hx; apply list_elem_of_In in Hx; apply list_elem_of_In; cbn in *; tauto.

Lemma py_sorted_tie (x y : Z) (s : float64) :
  py_sorted np_lt snd true [(x, s); (y, s)] = [(x, s); (y, s)].
Proof. unfold py_sorted. cbn. by rewrite np_lt_irrefl. Qed.

(** C1 fails as stated: documents 1 and 2 have the same combined
    score, the task of document 2 completes first, and document 2 is
    returned first. *)
Lemma rank_documents_tie_not_by_id :
  schedule sample2 [2%Z; 1%Z]
  ∧ rank_documents expand_single sample2 [2%Z; 1%Z] "dog"
    = Ok [(2%Z, Fin 0); (1%Z, Fin 0)]
  ∧ ¬ ties_by_ascending_id [(2%Z, Fin 0); (1%Z, Fin 0)].
Proof.
  split_and!.
  - unfold schedule. vm_compute. first [reflexivity|apply perm_swap].
  - rewrite sample2_rank_dog by list_incl. f_equal. apply py_sorted_tie.
  - intros H. specialize (H 0 1 (2%Z, Fin 0) (1%Z, Fin 0)). cbn in H.
    assert (2 < 1)%Z; [apply H; (lia || done)|lia].
Qed.

(** C2 fails as stated: the same snapshot, query and weights, and two
    completion orders, give two different sequences. *)
Lemma rank_documents_depends_on_completion :
  schedule sample2 [1%Z; 2%Z] ∧ schedule sample2 [2%Z; 1%Z]
  ∧ rank_documents expand_single sample2 [1%Z; 2%Z] "dog"
    = Ok [(1%Z, Fin 0); (2%Z, Fin 0)]
  ∧ rank_documents expand_single sample2 [2%Z; 1%Z] "dog"
    = Ok [(2%Z, Fin 0); (1%Z, Fin 0)]
  ∧ rank_documents expand_single sample2 [1%Z; 2%Z] "dog"
    ≠ rank_documents expand_single sample2 [2%Z; 1%Z] "dog".
Proof.
  assert (rank_documents expand_single sample2 [1%Z; 2%Z] "dog"
          = Ok [(1%Z, Fin 0); (2%Z, Fin 0)]) as H12.
  { rewrite sample2_rank_dog by list_incl. f_equal. apply py_sorted_tie. }
  assert (rank_documents expand_single sample2 [2%Z; 1%Z] "dog"
          = Ok [(2%Z, Fin 0); (1%Z, Fin 0)]) as H21.
  { rewrite sample2_rank_dog by list_incl. f_equal. apply py_sorted_tie. }
  split_and!; [| |done|done|].
  - unfold schedule. vm_compute. first [reflexivity|apply perm_swap].
  - unfold schedule. vm_compute. first [reflexivity|apply perm_swap].
  - rewrite H12, H21. intros [=].
Qed.

Lemma sample_cat idx dl doc_id :
  idx = cat_index →
  dl !! doc_id = Some 10%Z →
  collect_score (ranker_of idx dl 1.8 0.5) (expand_single "cat") doc_id
  = Ok (doc_id,
        Fin (0.7 * score_value (ranker_of idx dl 1.8 0.5) 1.8 0.5 10 doc_id ["cat"]
             + 0.3 * 0)).
Proof.
  intros -> Hlen. apply ranker_of_collect; [done|done|done|].
  intros u ->%list_elem_of_singleton.
  destruct (decide (doc_id = 1%Z)) as [->|Hne].
  - exists 2%Z. split; [reflexivity|done].
  - exists 0%Z. split; [|done].
    apply (calculate_tf_not_listed _ _ _ {[ 1%Z := {[ "frequency" := PyInt 2 ]} ]});
      [reflexivity|by apply lookup_singleton_ne].
Qed.

Lemma sample_rank_cat idx dl completed :
  idx = cat_index →
  (∀ d, d ∈ completed → dl !! d = Some 10%Z) →
  rank_documents expand_single (ranker_of idx dl 1.8 0.5) completed "cat"
  = Ok (py_sorted np_lt snd true (cat_scores (ranker_of idx dl 1.8 0.5) completed)).
Proof.
  intros Hidx Hlen. unfold rank_documents, cat_scores.
  rewrite (mapM_Ok _ (λ d, (d,
    Fin (0.7 * score_value (ranker_of idx dl 1.8 0.5) 1.8 0.5 10 d ["cat"] + 0.3 * 0))));
    [done|].
  intros d Hd. apply sample_cat; auto.
Qed.

Lemma cat_scores_no_nan self completed : no_nan (cat_scores self completed).
Proof. unfold no_nan, cat_scores. apply Forall_fmap, Forall_forall. done. Qed.

Lemma three_lengths_lookup d : d ∈ [3%Z; 1%Z; 2%Z] → three_lengths !! d = Some 10%Z.
Proof.
  intros Hd. apply list_elem_of_In in Hd. cbn in Hd.
  destruct Hd as [<-|[<-|[<-|[]]]]; reflexivity.
Qed.

Lemma two_lengths_lookup l d :
  l ⊆ [1%Z; 2%Z] → d ∈ l → two_lengths !! d = Some 10%Z.
Proof.
  intros Hl Hd%Hl. apply list_elem_of_In in Hd. cbn in Hd.
  destruct Hd as [<-|[<-|[]]]; reflexivity.
Qed.

Lemma rank_documents_sorted_witness :
  rank_documents expand_single sample3 [3%Z; 1%Z; 2%Z] "cat"
  = Ok (py_sorted np_lt snd true (cat_scores sample3 [3%Z; 1%Z; 2%Z]))
  ∧ non_increasing (py_sorted np_lt snd true (cat_scores sample3 [3%Z; 1%Z; 2%Z]))
  ∧ ∃ scores,
      mapM (collect_score sample3 (expand_single "cat")) [3%Z; 1%Z; 2%Z] = Ok scores
      ∧ scores.*1 = [3%Z; 1%Z; 2%Z]
      ∧ py_sorted np_lt snd true (cat_scores sample3 [3%Z; 1%Z; 2%Z]) ≡ₚ scores
      ∧ ∀ s, with_score s (py_sorted np_lt snd true (cat_scores sample3 [3%Z; 1%Z; 2%Z]))
             = with_score s scores.
Proof.
  assert (rank_documents expand_single sample3 [3%Z; 1%Z; 2%Z] "cat"
          = Ok (py_sorted np_lt snd true (cat_scores sample3 [3%Z; 1%Z; 2%Z]))) as Hrank.
  { apply sample_rank_cat; [reflexivity|]. apply three_lengths_lookup. }
  split; [exact Hrank|].
  apply (rank_documents_sorted expand_single sample3 [3%Z; 1%Z; 2%Z] "cat" _ Hrank).
  unfold no_nan. rewrite sorted_scores_Permutation. apply cat_scores_no_nan.
Defined.

(** The two sample documents have different scores for [cat]. *)
Lemma sample2_cat_scores_distinct completed :
  NoDup completed → completed ⊆ [1%Z; 2%Z] →
  NoDup (cat_scores sample2 completed).*2.
Proof.
  intros Hnd Hsub. unfold cat_scores. rewrite <- list_fmap_compose.
  apply NoDup_fmap_2_strong; [|done].
  intros x y Hx%Hsub Hy%Hsub. unfold compose. cbn [snd]. intros [= Heq].
  assert (∀ d, d ≠ 1%Z → score_value sample2 1.8 0.5 10 d ["cat"] = 0%R) as Hzero.
  { intros d Hd. apply score_value_no_occurrence.
    intros u ->%list_elem_of_singleton. unfold tf_int.
    rewrite (calculate_tf_not_listed _ _ _ {[ 1%Z := {[ "frequency" := PyInt 2 ]} ]});
      [done|reflexivity|by apply lookup_singleton_ne]. }
  assert (0 < score_value sample2 1.8 0.5 10 1 ["cat"])%R as Hpos.
  { unfold score_value, term_value. cbn [fmap list_fmap foldr].
    replace (tf_int sample2 "cat" 1) with 2%Z by reflexivity.
    replace (size (doc_lengths sample2)) with 2 by reflexivity.
    replace (num_docs_with_term sample2 "cat") with 1 by reflexivity.
    pose proof (idf_value_pos 2 1 ltac:(lia)) as Hidf.
    pose proof (norm_value_pos sample2 1.8 0.5 10) as Hn.
    cbn [avg_doc_length ranker_of sample2] in Hn.
    assert (0 < norm_value sample2 1.8 0.5 10)%R as Hnorm by (apply Hn; [lra|lra|done|lra]).
    assert (0 < 2 * (1.8 + 1) / (2 + norm_value sample2 1.8 0.5 10))%R
      by (apply Rdiv_lt_0_compat; lra).
    assert (0 < idf_value 2 1 * (2 * (1.8 + 1) / (2 + norm_value sample2 1.8 0.5 10)))%R
      by (by apply Rmult_lt_0_compat).
    lra. }
  destruct (decide (x = 1%Z)) as [->|Hx1], (decide (y = 1%Z)) as [->|Hy1]; [done| | |].
  - rewrite (Hzero y) in Heq by done. lra.
  - rewrite (Hzero x) in Heq by done. lra.
  - apply list_elem_of_In in Hx, Hy. cbn in Hx, Hy. lia.
Qed.

Lemma rank_documents_deterministic_witness :
  rank_documents expand_single sample2 [2%Z; 1%Z] "cat"
  = Ok (py_sorted np_lt snd true (cat_scores sample2 [1%Z; 2%Z])).
Proof.
  apply (rank_documents_deterministic expand_single sample2 [1%Z; 2%Z] [2%Z; 1%Z]).
  - unfold schedule. vm_compute. first [reflexivity|apply perm_swap].
  - unfold schedule. vm_compute. first [reflexivity|apply perm_swap].
  - apply sample_rank_cat; [reflexivity|]. intros d. by apply two_lengths_lookup.
  - unfold no_nan. rewrite sorted_scores_Permutation. apply cat_scores_no_nan.
  - rewrite sorted_scores_Permutation. apply sample2_cat_scores_distinct.
    + repeat constructor; rewrite ?elem_of_cons, ?elem_of_nil; intros H; intuition lia.
    + done.
Defined.

(** C4 fails as stated: the statistics of document 2 are malformed, the
    task of document 1 returns a score, and the call returns no ranking
    but the fault of the task of document 2. *)
Lemma rank_documents_aborts_on_task_fault :
  schedule malformed2 [1%Z; 2%Z]
  ∧ (∃ s, calculate_bm25_plus_score malformed2 (expand_single "cat") 1 = Ok (Fin s))
  ∧ calculate_bm25_plus_score malformed2 (expand_single "cat") 2 = Raise TypeError
  ∧ rank_documents expand_single malformed2 [1%Z; 2%Z] "cat" = Raise TypeError.
Proof.
  assert (finite_terms malformed2 1.8 0.5 10 1 ["cat"]) as Hfin.
  { intros u ->%list_elem_of_singleton. split; [by exists 2%Z|].
    replace (tf_int malformed2 "cat" 1) with 2%Z by reflexivity.
    pose proof (norm_value_pos malformed2 1.8 0.5 10) as Hn.
    cbn [avg_doc_length ranker_of malformed2] in Hn.
    assert (0 < norm_value malformed2 1.8 0.5 10)%R by (apply Hn; [lra|lra|done|lra]).
    lra. }
  assert (calculate_bm25_plus_score malformed2 (expand_single "cat") 1
          = Ok (Fin (score_value malformed2 1.8 0.5 10 1 ["cat"]))) as H1.
  { apply bm25_body_Fin; [done|reflexivity| |done].
    cbn [avg_doc_length ranker_of malformed2]. lra. }
  split_and!.
  - unfold schedule. vm_compute. first [reflexivity|apply perm_swap].
  - by eexists.
  - exact malformed_task_faults.
  - unfold rank_documents. rewrite !mapM_cons.
    rewrite (collect_score_Ok _ _ _ _ H1).
    by rewrite (collect_score_Raise _ _ _ _ malformed_task_faults).
Qed.

(** ** The authority computation *)

Lemma graph_edges_shape idx e :
  e ∈ graph_edges idx → ∃ t d, e = (NStr t, NInt d).
Proof.
  unfold graph_edges. intros ([t links] & He & _)%list_elem_of_bind.
  apply list_elem_of_bind in He as ([d info] & He & _).
  apply list_elem_of_singleton in He. by exists t, d.
Qed.

Lemma sorted_nodes_mixed ns t d :
  NStr t ∈ ns → NInt d ∈ ns → sorted_nodes ns = Raise TypeError.
Proof.
  intros Ht Hd. unfold sorted_nodes.
  destruct (forallb is_int ns) eqn:Hint.
  { rewrite forallb_forall in Hint. apply list_elem_of_In, Hint in Ht. done. }
  destruct (forallb (λ n, negb (is_int n)) ns) eqn:Hstr; [|done].
  rewrite forallb_forall in Hstr. apply list_elem_of_In, Hstr in Hd. done.
Qed.

Section authority.

Variable eigs : list (list R) → result (list float64).

(** The graph receives the index keys, which are strings, and the
    document identifiers, which are integers: as soon as it has an
    edge, sorting its nodes faults, and the handler returns the empty
    mapping. *)
Lemma page_rank_body_edges idx dl :
  graph_edges idx ≠ [] → page_rank_body eigs idx dl = Raise TypeError ∨ idx = ∅.
Proof.
  intros Hedges. unfold page_rank_body.
  case_bool_decide as Hidx; [by right|left].
  destruct (graph_edges idx) as [|e edges] eqn:He; [done|].
  destruct (graph_edges_shape idx e) as (t & d & ->); [rewrite He; by left|].
  rewrite (bool_decide_eq_false_2 (_ :: _ = [])) by done.
  rewrite orb_false_r. case_bool_decide as Hnodes.
  { assert (NStr t ∈ graph_nodes idx dl) as Hin; [|by rewrite Hnodes in Hin].
    unfold graph_nodes. rewrite He. set_solver. }
  rewrite (sorted_nodes_mixed _ t d); [done| |].
  - apply elem_of_elements. unfold graph_nodes. rewrite He.
    apply elem_of_union_r, elem_of_list_to_set. cbn. by left.
  - apply elem_of_elements. unfold graph_nodes. rewrite He.
    apply elem_of_union_r, elem_of_list_to_set, elem_of_app. right. cbn. by left.
Qed.

Lemma page_rank_scores_empty idx dl :
  calculate_page_rank_scores_scipy eigs idx dl = ∅.
Proof.
  unfold calculate_page_rank_scores_scipy.
  destruct (decide (graph_edges idx = [])) as [He|He].
  - unfold page_rank_body. case_bool_decide; [done|].
    rewrite (bool_decide_eq_true_2 (graph_edges idx = [])) by done.
    by rewrite orb_true_r.
  - destruct (page_rank_body_edges idx dl He) as [->| ->]; [done|].
    unfold page_rank_body. by rewrite bool_decide_eq_true_2.
Qed.

Lemma init_page_rank_scores indexer k b' d cw pw kp bp :
  page_rank_scores (init eigs indexer k b' d cw pw kp bp)
  = calculate_page_rank_scores_scipy eigs
      (get_inverted_index_and_doc_lengths indexer).1
      (get_inverted_index_and_doc_lengths indexer).2.
Proof. unfold init. by destruct (get_inverted_index_and_doc_lengths indexer). Qed.

Variable expand_query : string → list string.

(** C6. [calculate_page_rank_scores_scipy] returns a mapping on every
    input, the body being wrapped in a handler: when the inverted
    index is empty, when the graph has no node or no edge, or when a
    step of the body, the eigen solver included, raises, that mapping
    is empty; and a ranker that holds it then ranks with authority 0
    for every document. *)
Theorem page_rank_degrades_to_empty (idx : InvertedIndex) (dl : DocLengths) :
  idx = ∅ ∨ graph_nodes idx dl = ∅ ∨ graph_edges idx = []
    ∨ (∃ e, page_rank_body eigs idx dl = Raise e) →
  calculate_page_rank_scores_scipy eigs idx dl = ∅
  ∧ ∀ self completed query,
      page_rank_scores self = calculate_page_rank_scores_scipy eigs idx dl →
      (∀ doc_id, default (Fin 0) (page_rank_scores self !! NInt doc_id) = Fin 0)
      ∧ rank_documents expand_query self completed query
        = rank_without_authority expand_query self completed query.
Proof.
  intros Hdeg.
  assert (calculate_page_rank_scores_scipy eigs idx dl = ∅) as Hempty.
  { unfold calculate_page_rank_scores_scipy.
    destruct Hdeg as [->|[Hn|[He|[e ->]]]]; [done| | |done].
    - unfold page_rank_body. case_bool_decide; [done|].
      by rewrite (bool_decide_eq_true_2 (graph_nodes idx dl = ∅)).
    - unfold page_rank_body. case_bool_decide; [done|].
      rewrite (bool_decide_eq_true_2 (graph_edges idx = [])) by done.
      by rewrite orb_true_r. }
  split; [done|]. intros self completed query Hself.
  rewrite Hempty in Hself.
  assert (∀ doc_id, default (Fin 0) (page_rank_scores self !! NInt doc_id) = Fin 0) as Hzero.
  { intros doc_id. by rewrite Hself, lookup_empty. }
  split; [done|].
  unfold rank_documents, rank_without_authority.
  f_equal. apply mapM_ext. intros doc_id. unfold collect_score.
  by rewrite Hzero.
Qed.

End authority.

Lemma page_rank_degrades_to_empty_witness :
  calculate_page_rank_scores_scipy eigs_failing cat_index three_lengths = ∅
  ∧ ∀ self completed query,
      page_rank_scores self
        = calculate_page_rank_scores_scipy eigs_failing cat_index three_lengths →
      (∀ doc_id, default (Fin 0) (page_rank_scores self !! NInt doc_id) = Fin 0)
      ∧ rank_documents expand_single self completed query
        = rank_without_authority expand_single self completed query.
Proof.
  apply (page_rank_degrades_to_empty eigs_failing expand_single cat_index three_lengths).
  right. right. right. exists TypeError.
  destruct (page_rank_body_edges eigs_failing cat_index three_lengths) as [H|H];
    [|exact H|].
  - vm_compute. discriminate.
  - exfalso. revert H. apply (map_non_empty_singleton (M:=gmap string)).
Defined.

(** ** Monotonicity in the term frequency *)

Lemma calculate_tf_listed self term doc_id (posts : postings) (info : doc_info) v :
  inverted_index self !! term = Some posts →
  posts !! doc_id = Some info →
  info !! "frequency" = Some v →
  calculate_tf self term doc_id = v.
Proof. unfold calculate_tf. intros -> . cbn. intros ->. cbn. by intros ->. Qed.

Section set_frequency.

Variables (self : AdvancedRanking) (term : string) (doc_id : Z) (f : Z).

Lemma calculate_tf_set_frequency :
  calculate_tf (set_frequency self term doc_id f) term doc_id = PyInt f.
Proof.
  unfold calculate_tf, set_frequency. cbn [inverted_index].
  rewrite lookup_insert_eq. cbn. rewrite lookup_insert_eq. cbn.
  by rewrite lookup_insert_eq.
Qed.

Lemma calculate_tf_set_frequency_ne u :
  u ≠ term →
  calculate_tf (set_frequency self term doc_id f) u doc_id = calculate_tf self u doc_id.
Proof.
  intros Hu. unfold calculate_tf, set_frequency. cbn [inverted_index].
  by rewrite lookup_insert_ne.
Qed.

Lemma num_docs_set_frequency u :
  is_Some (default ∅ (inverted_index self !! term) !! doc_id) →
  num_docs_with_term (set_frequency self term doc_id f) u = num_docs_with_term self u.
Proof.
  intros Hinfo. unfold num_docs_with_term, set_frequency. cbn [inverted_index].
  destruct (decide (u = term)) as [->|Hu]; [|by rewrite lookup_insert_ne].
  rewrite lookup_insert_eq. cbn. by rewrite map_size_insert_Some.
Qed.

Lemma norm_value_set_frequency k b' len :
  norm_value (set_frequency self term doc_id f) k b' len = norm_value self k b' len.
Proof. done. Qed.

End set_frequency.

Lemma num_docs_set_frequency_other self term doc_id f u :
  u ≠ term →
  num_docs_with_term (set_frequency self term doc_id f) u = num_docs_with_term self u.
Proof.
  intros Hu. unfold num_docs_with_term, set_frequency. cbn [inverted_index].
  by rewrite lookup_insert_ne.
Qed.

Lemma foldr_Rplus_le {A} (g h : A → R) (l : list A) :
  (∀ x, x ∈ l → (g x <= h x)%R) →
  (foldr Rplus 0 (g <$> l) <= foldr Rplus 0 (h <$> l))%R.
Proof.
  induction l as [|x l IH]; intros Hgh; cbn; [lra|].
  pose proof (Hgh x ltac:(left)). pose proof (IH ltac:(intros y Hy; apply Hgh; by right)).
  lra.
Qed.

(** The saturation [f * (k + 1) / (f + c)] grows with [f] when [c >= 0]. *)
Lemma saturation_monotone (f1 f2 k c : R) :
  (0 <= k)%R → (0 <= c)%R → (0 <= f1 <= f2)%R → (f1 + c ≠ 0)%R →
  (f1 * (k + 1) / (f1 + c) <= f2 * (k + 1) / (f2 + c))%R.
Proof.
  intros Hk Hc Hf Hden.
  assert (0 < f1 + c)%R as H1 by lra. assert (0 < f2 + c)%R as H2 by lra.
  apply Rmult_le_reg_r with ((f1 + c) * (f2 + c))%R; [by apply Rmult_lt_0_compat|].
  replace (f1 * (k + 1) / (f1 + c) * ((f1 + c) * (f2 + c)))%R
    with (f1 * (k + 1) * (f2 + c))%R by (field; lra).
  replace (f2 * (k + 1) / (f2 + c) * ((f1 + c) * (f2 + c)))%R
    with (f2 * (k + 1) * (f1 + c))%R by (field; lra).
  assert (f1 * c <= f2 * c)%R by (apply Rmult_le_compat_r; lra).
  assert (0 <= k * (f2 * c - f1 * c))%R by (apply Rmult_le_pos; lra).
  lra.
Qed.

(** C8, as the code has it. For [k1 >= 0] and [0 <= b <= 1], a document
    of fixed non-negative length, and a query whose terms all have an
    integer frequency and a non-zero denominator for the document:
    raising the frequency that [calculate_tf] reads for one query term
    in that document (the recorded one, or 0 when the term, the
    document or the key is not listed), everything else unchanged, does
    not lower the score that [calculate_bm25_score] returns, as long as
    the term is then listed for no more documents than there are. *)
Theorem bm25_monotone_in_frequency (self : AdvancedRanking) (term : string)
    (doc_id len f1 f2 : Z) (query_terms : list string) :
  (0 <= k1 self)%R → (0 <= b self <= 1)%R → (0 <= avg_doc_length self)%R →
  doc_lengths self !! doc_id = Some len → (0 <= len)%Z →
  calculate_tf self term doc_id = PyInt f1 →
  (0 <= f1 <= f2)%Z →
  num_docs_with_term (set_frequency self term doc_id f2) term ≤ size (doc_lengths self) →
  term ∈ query_terms →
  finite_terms self (k1 self) (b self) len doc_id query_terms →
  ∃ s1 s2,
    calculate_bm25_score self query_terms doc_id = Ok (Fin s1)
    ∧ calculate_bm25_score (set_frequency self term doc_id f2) query_terms doc_id
      = Ok (Fin s2)
    ∧ (s1 <= s2)%R.
Proof.
  intros Hk Hb Havg Hlen Hlen0 Htf1 Hf Hidf Hterm Hfin.
  set (self2 := set_frequency self term doc_id f2) in *.
  assert (query_terms ≠ []) as Hne by (intros ->; by apply elem_of_nil in Hterm).
  assert (tf_int self term doc_id = f1) as Hint1 by (unfold tf_int; by rewrite Htf1).
  assert (tf_int self2 term doc_id = f2) as Hint2
    by (unfold tf_int, self2; by rewrite calculate_tf_set_frequency).
  pose proof (norm_value_nonneg self (k1 self) (b self) len Hk Hb Hlen0 Havg) as Hnorm.
  assert (IZR f1 <= IZR f2)%R as Hf12 by (apply IZR_le; lia).
  assert (0 <= IZR f1)%R as Hf1 by (apply IZR_le; lia).
  assert (∀ k b' l, norm_value self2 k b' l = norm_value self k b' l) as Hnv by done.
  assert (∀ u, u ≠ term → num_docs_with_term self2 u = num_docs_with_term self u) as Hnd
    by (intros u Hu; by apply num_docs_set_frequency_other).
  assert (∀ u, u ≠ term → calculate_tf self2 u doc_id = calculate_tf self u doc_id) as Hother
    by (intros u Hu; by apply calculate_tf_set_frequency_ne).
  destruct (Hfin term Hterm) as [_ Hden1]. rewrite Hint1 in Hden1.
  assert (finite_terms self2 (k1 self) (b self) len doc_id query_terms) as Hfin2.
  { intros u Hu. destruct (Hfin u Hu) as [Hnum Hden].
    destruct (decide (u = term)) as [->|Hne'].
    - split; [exists f2; apply calculate_tf_set_frequency|].
      rewrite Hint2, Hnv. lra.
    - unfold numeric_tf, tf_int. by rewrite Hother, Hnv. }
  exists (score_value self (k1 self) (b self) len doc_id query_terms),
         (score_value self2 (k1 self) (b self) len doc_id query_terms).
  split_and!.
  - apply bm25_body_Fin; [done|done|lra|done].
  - unfold calculate_bm25_score. apply (bm25_body_Fin self2); [done|done| |done].
    cbn [avg_doc_length self2 set_frequency]. lra.
  - unfold score_value. apply foldr_Rplus_le. intros u Hu.
    unfold term_value. rewrite Hnv.
    replace (size (doc_lengths self2)) with (size (doc_lengths self)) by done.
    destruct (decide (u = term)) as [->|Hne'];
      [|unfold tf_int; rewrite Hnd, Hother by done; apply Rle_refl].
    rewrite Hint1, Hint2.
    pose proof (idf_value_nonneg _ _ Hidf) as Hidf2.
    destruct (default ∅ (inverted_index self !! term) !! doc_id) as [info|] eqn:Hlisted.
    + (* the document is listed under the term: the idf is unchanged *)
      unfold self2 in Hidf2 |- *.
      rewrite num_docs_set_frequency in Hidf2 |- * by (rewrite Hlisted; by eexists).
      apply Rmult_le_compat_l; [done|]. by apply saturation_monotone.
    + (* it is not: the term added nothing, and adds a non-negative value *)
      rewrite (calculate_tf_absent _ _ _ Hlisted) in Htf1. injection Htf1 as <-.
      pose proof (saturation_monotone 0 (IZR f2) (k1 self)
                    (norm_value self (k1 self) (b self) len) Hk Hnorm
                    ltac:(lra) Hden1) as Hsat.
      unfold Rdiv in Hsat |- *. rewrite !Rmult_0_l in Hsat. rewrite !Rmult_0_l, Rmult_0_r.
      by apply Rmult_le_pos.
Qed.

Lemma bm25_monotone_in_frequency_witness :
  ∃ s1 s2,
    calculate_bm25_score sample_plain ["cat"] 2 = Ok (Fin s1)
    ∧ calculate_bm25_score (set_frequency sample_plain "cat" 2 3) ["cat"] 2 = Ok (Fin s2)
    ∧ (s1 <= s2)%R.
Proof.
  apply (bm25_monotone_in_frequency sample_plain "cat" 2 10 0 3 ["cat"]).
  - cbn [k1 sample_plain ranker_of]. lra.
  - cbn [b sample_plain ranker_of]. lra.
  - cbn [avg_doc_length sample_plain ranker_of]. lra.
  - reflexivity.
  - lia.
  - reflexivity.
  - lia.
  - unfold num_docs_with_term, set_frequency.
    cbn [inverted_index doc_lengths sample_plain ranker_of].
    vm_compute. lia.
  - apply list_elem_of_In. left. reflexivity.
  - intros u Hu. apply list_elem_of_In in Hu. destruct Hu as [<-|[]].
    split; [exists 0%Z; reflexivity|].
    replace (tf_int sample_plain "cat" 2) with 0%Z by reflexivity.
    change (IZR 0 + norm_value sample_plain 1.5 0.75 10 ≠ 0)%R.
    assert (0 < norm_value sample_plain 1.5 0.75 10)%R.
    { apply norm_value_pos; [lra|lra|lia|].
      unfold sample_plain. cbn [avg_doc_length ranker_of]. lra. }
    lra.
Defined.

(** C8 fails as stated: with the non-negative tunables [k1 = 1] and
    [b = 2], raising the frequency of [cat] in document 1 from 1 to 2
    lowers the score of the document. *)
Lemma bm25_not_monotone_when_b_exceeds_1 :
  (0 <= k1 steep)%R ∧ (0 <= b steep)%R
  ∧ calculate_tf steep "cat" 1 = PyInt 1
  ∧ calculate_tf (set_frequency steep "cat" 1 2) "cat" 1 = PyInt 2
  ∧ ∃ s1 s2,
      calculate_bm25_score steep ["cat"] 1 = Ok (Fin s1)
      ∧ calculate_bm25_score (set_frequency steep "cat" 1 2) ["cat"] 1 = Ok (Fin s2)
      ∧ (s2 < s1)%R.
Proof.
  set (c := norm_value steep 1 2 4).
  assert (-0.22 < c < -0.2)%R as Hc.
  { unfold c, norm_value. cbn [avg_doc_length steep ranker_of].
    set (q := (4 / (10 + 1e-6))%R).
    assert (q * (10 + 1e-6) = 4)%R as Hq by (unfold q; field; lra).
    lra. }
  assert (finite_terms steep 1 2 4 1 ["cat"]) as Hfin1.
  { intros u Hu. apply list_elem_of_In in Hu. destruct Hu as [<-|[]].
    split; [exists 1%Z; reflexivity|].
    replace (tf_int steep "cat" 1) with 1%Z by reflexivity. fold c. lra. }
  assert (tf_int (set_frequency steep "cat" 1 2) "cat" 1 = 2%Z) as Htf2
    by (unfold tf_int; by rewrite calculate_tf_set_frequency).
  assert (finite_terms (set_frequency steep "cat" 1 2) 1 2 4 1 ["cat"]) as Hfin2.
  { intros u Hu. apply list_elem_of_In in Hu. destruct Hu as [<-|[]].
    split; [exists 2%Z; apply calculate_tf_set_frequency|].
    rewrite Htf2, norm_value_set_frequency. fold c. lra. }
  split_and!.
  - cbn [k1 steep ranker_of]. lra.
  - cbn [b steep ranker_of]. lra.
  - reflexivity.
  - apply calculate_tf_set_frequency.
  - exists (score_value steep 1 2 4 1 ["cat"]),
           (score_value (set_frequency steep "cat" 1 2) 1 2 4 1 ["cat"]).
    split_and!.
    + apply (bm25_body_Fin steep); [done|reflexivity| |done].
      cbn [avg_doc_length steep ranker_of]. lra.
    + apply (bm25_body_Fin (set_frequency steep "cat" 1 2)); [done|reflexivity| |done].
      cbn [avg_doc_length steep ranker_of set_frequency]. lra.
    + unfold score_value, term_value. cbn [fmap list_fmap foldr].
      rewrite Htf2, norm_value_set_frequency, num_docs_set_frequency
        by (by eexists).
      replace (tf_int steep "cat" 1) with 1%Z by reflexivity.
      replace (size (doc_lengths (set_frequency steep "cat" 1 2)))
        with (size (doc_lengths steep)) by done.
      replace (size (doc_lengths steep)) with 2 by reflexivity.
      replace (num_docs_with_term steep "cat") with 1 by reflexivity.
      fold c. pose proof (idf_value_pos 2 1 ltac:(lia)) as Hidf.
      assert (2 * (1 + 1) / (2 + c) < 2.3)%R as Hhi.
      { apply Rmult_lt_reg_r with (2 + c)%R; [lra|].
        unfold Rdiv. rewrite Rmult_assoc, Rinv_l by lra. lra. }
      assert (2.4 < 1 * (1 + 1) / (1 + c))%R as Hlo.
      { apply Rmult_lt_reg_r with (1 + c)%R; [lra|].
        unfold Rdiv. rewrite Rmult_assoc, Rinv_l by lra. lra. }
      assert (idf_value 2 1 * (2 * (1 + 1) / (2 + c))
              < idf_value 2 1 * (1 * (1 + 1) / (1 + c)))%R
        by (apply Rmult_lt_compat_l; lra).
      lra.
Qed.

(** ** The remaining sample evaluations *)

Lemma calculate_idf_spec_witness :
  (∃ v, calculate_idf sample3 "dog" = Ok v ∧ (0 <= v)%R)
  ∧ calculate_idf sample3 "dog"
    = Ok (ln ((INR (size (doc_lengths sample3)) - 0 + 0.5) / (0 + 0.5) + 1.0)).
Proof.
  split.
  - apply (proj1 (proj2 (calculate_idf_spec sample3 "dog"))).
    unfold sample3. cbn [inverted_index doc_lengths ranker_of]. vm_compute. lia.
  - apply (proj2 (proj2 (calculate_idf_spec sample3 "dog"))). reflexivity.
Defined.

Lemma calculate_idf_strictly_decreasing_witness :
  ∃ v1 v2, calculate_idf sample_bare "cat" = Ok v1 ∧ calculate_idf sample3 "cat" = Ok v2
           ∧ (v2 < v1)%R.
Proof.
  apply (calculate_idf_strictly_decreasing sample_bare sample3 "cat" "cat").
  - reflexivity.
  - unfold num_docs_with_term, sample_bare, sample3. cbn [inverted_index ranker_of].
    vm_compute. lia.
  - unfold num_docs_with_term, sample3. cbn [inverted_index doc_lengths ranker_of].
    vm_compute. lia.
Defined.

(** The same defect with the default [k1] and [b = 1]: an empty
    document has the normaliser [1.5 * (1 - 1 + 1 * 0) = 0]. *)
Lemma zero_denominator_empty_document :
  calculate_bm25_score with_empty_document ["cat"] 2 = Ok NaN.
Proof.
  assert (tf_value with_empty_document "cat" 2 = Fin 0) as Htf.
  { unfold tf_value. by rewrite calculate_tf_absent. }
  apply (zero_denominator_poisons_score _ _ _ _ _ 0%Z "cat"); [reflexivity| | |].
  - intros u ->%list_elem_of_singleton. exists 0%Z. by apply calculate_tf_absent.
  - by apply list_elem_of_singleton.
  - rewrite Htf. unfold bm25_denominator.
    rewrite bm25_norm_Fin
      by (unfold with_empty_document; cbn [avg_doc_length ranker_of]; lra).
    unfold norm_value, with_empty_document. cbn [k1 b avg_doc_length ranker_of np_add].
    f_equal. unfold Rdiv. rewrite Rmult_0_l. lra.
Qed.

(** * Further properties of the scorers *)

Lemma scorer_body v self query_terms doc_id :
  scorer v self query_terms doc_id
  = bm25_body self (k_of v self) (b_of v self) query_terms doc_id.
Proof. by destruct v. Qed.

Lemma idf_value_sign (N n : nat) : (0 <= idf_value N n)%R ↔ n ≤ N.
Proof.
  split; [|apply idf_value_nonneg].
  intros Hpos. destruct (decide (n ≤ N)) as [|Hgt]; [done|exfalso].
  assert (N + 1 ≤ n) as Hle by lia. apply le_INR in Hle. rewrite plus_INR in Hle.
  cbn [INR] in Hle. pose proof (pos_INR N) as HN.
  unfold idf_value in Hpos. rewrite idf_argument in Hpos.
  assert (ln ((INR N + 1) / (INR n + 0.5)) < ln 1)%R as Hlt; [|rewrite ln_1 in Hlt; lra].
  apply ln_increasing; [apply Rdiv_lt_0_compat; lra|].
  apply Rmult_lt_reg_r with (INR n + 0.5)%R; [lra|].
  unfold Rdiv. rewrite Rmult_assoc, Rinv_l by lra. lra.
Qed.

(** X1. The inverse document frequency is non-negative exactly when the
    index lists the term for no more documents than [doc_lengths]
    holds; it is at most [ln(2 N + 2)], the value of a term that the
    index does not list. *)
Theorem calculate_idf_range (self : AdvancedRanking) (term : string) :
  ∃ v, calculate_idf self term = Ok v
       ∧ ((0 <= v)%R ↔ num_docs_with_term self term ≤ size (doc_lengths self))
       ∧ (v <= ln (2 * INR (size (doc_lengths self)) + 2))%R
       ∧ (inverted_index self !! term = None →
            v = ln (2 * INR (size (doc_lengths self)) + 2)).
Proof.
  eexists. split; [apply calculate_idf_eq|]. split_and!.
  - apply idf_value_sign.
  - set (N := size (doc_lengths self)). set (n := num_docs_with_term self term).
    pose proof (pos_INR N) as HN. pose proof (pos_INR n) as Hn.
    unfold idf_value. rewrite idf_argument.
    assert ((INR N + 1) / (INR n + 0.5) <= 2 * INR N + 2)%R as Hle.
    { apply Rmult_le_reg_r with (INR n + 0.5)%R; [lra|].
      unfold Rdiv. rewrite Rmult_assoc, Rinv_l by lra.
      assert (0 <= INR N * INR n)%R by (by apply Rmult_le_pos). lra. }
    destruct Hle as [Hlt| ->]; [|lra].
    apply Rlt_le, ln_increasing; [apply Rdiv_lt_0_compat; lra|done].
  - intros Hnone. unfold idf_value, num_docs_with_term. rewrite Hnone. cbn.
    rewrite map_size_empty. cbn [INR]. f_equal.
    replace 0.5%R with (/ 2)%R by lra. replace 1.0%R with 1%R by lra. field.
Qed.

Lemma bm25_body_no_occurrence self k b' query_terms doc_id len :
  query_terms ≠ [] →
  doc_lengths self !! doc_id = Some len → (0 <= len)%Z →
  (0 <= avg_doc_length self)%R → (0 < k)%R → (0 <= b' < 1)%R →
  (∀ t, t ∈ query_terms → default ∅ (inverted_index self !! t) !! doc_id = None) →
  bm25_body self k b' query_terms doc_id = Ok (Fin 0).
Proof.
  intros Hne Hlen Hlen0 Havg Hk Hb Hnone.
  pose proof (norm_value_pos self k b' len Hk Hb Hlen0 Havg) as Hnorm.
  assert (∀ t, t ∈ query_terms → tf_int self t doc_id = 0%Z) as Hzero.
  { intros t Ht. unfold tf_int. by rewrite calculate_tf_absent by auto. }
  rewrite (bm25_body_Fin _ _ _ _ _ len); [|done|done|lra|].
  - by rewrite score_value_no_occurrence.
  - intros t Ht. split; [exists 0%Z; by apply calculate_tf_absent; auto|].
    rewrite Hzero by done. lra.
Qed.

(** X2. A known document in which no query term occurs (the index has no
    entry for the term, or none for the document under the term) has
    relevance exactly 0 under either scorer, when [k > 0] and
    [0 <= b < 1]. *)
Theorem bm25_no_occurrence_scores_zero (v : bm25_variant) (self : AdvancedRanking)
    (query_terms : list string) (doc_id len : Z) :
  query_terms ≠ [] →
  doc_lengths self !! doc_id = Some len → (0 <= len)%Z →
  (0 <= avg_doc_length self)%R →
  (0 < k_of v self)%R → (0 <= b_of v self < 1)%R →
  (∀ t, t ∈ query_terms → default ∅ (inverted_index self !! t) !! doc_id = None) →
  scorer v self query_terms doc_id = Ok (Fin 0).
Proof. intros. rewrite scorer_body. by eapply bm25_body_no_occurrence. Qed.

Lemma bm25_no_occurrence_scores_zero_witness :
  scorer Bm25 sample_plain ["cat"; "dog"] 2 = Ok (Fin 0).
Proof.
  apply (bm25_no_occurrence_scores_zero Bm25 sample_plain ["cat"; "dog"] 2 10).
  - discriminate.
  - reflexivity.
  - lia.
  - unfold sample_plain. cbn [avg_doc_length ranker_of]. lra.
  - unfold sample_plain. cbn [k_of k1 ranker_of]. lra.
  - unfold sample_plain. cbn [b_of b ranker_of]. lra.
  - intros t Ht. apply list_elem_of_In in Ht. destruct Ht as [<-|[<-|[]]]; reflexivity.
Defined.

Lemma saturation_bounds (f k c : R) :
  (0 <= k)%R → (0 <= c)%R → (0 <= f)%R → (f + c ≠ 0)%R →
  (0 <= f * (k + 1) / (f + c) <= k + 1)%R.
Proof.
  intros Hk Hc Hf Hden. assert (0 < f + c)%R as Hpos by lra.
  split.
  - apply Rmult_le_pos; [apply Rmult_le_pos; lra|].
    apply Rlt_le, Rinv_0_lt_compat. lra.
  - apply Rmult_le_reg_r with (f + c)%R; [done|].
    unfold Rdiv. rewrite Rmult_assoc, Rinv_l by lra.
    assert (0 <= c * k)%R by (by apply Rmult_le_pos). lra.
Qed.

Lemma foldr_Rplus_nonneg {A} (g : A → R) (l : list A) :
  (∀ x, x ∈ l → (0 <= g x)%R) → (0 <= foldr Rplus 0 (g <$> l))%R.
Proof.
  induction l as [|x l IH]; intros Hg; cbn; [lra|].
  pose proof (Hg x ltac:(left)). pose proof (IH ltac:(intros y Hy; apply Hg; by right)).
  lra.
Qed.

Lemma foldr_Rplus_scale {A} (g : A → R) (c : R) (l : list A) :
  (foldr Rplus 0 ((λ x, c * g x) <$> l) = c * foldr Rplus 0 (g <$> l))%R.
Proof. induction l as [|x l IH]; cbn; [lra|]. rewrite IH. lra. Qed.

(** X3. For [k >= 0] and [0 <= b <= 1], a known document of non-negative
    length, query terms that the index lists for no more documents
    than there are, and integer frequencies that are non-negative with
    non-zero denominators: either scorer returns a finite score between
    0 and [(k + 1)] times the sum of the inverse document frequencies
    of the query terms. *)
Theorem bm25_score_bounds (v : bm25_variant) (self : AdvancedRanking)
    (query_terms : list string) (doc_id len : Z) :
  query_terms ≠ [] →
  doc_lengths self !! doc_id = Some len → (0 <= len)%Z →
  (0 <= avg_doc_length self)%R →
  (0 <= k_of v self)%R → (0 <= b_of v self <= 1)%R →
  (∀ t, t ∈ query_terms → num_docs_with_term self t ≤ size (doc_lengths self)) →
  (∀ t, t ∈ query_terms → (0 <= tf_int self t doc_id)%Z) →
  finite_terms self (k_of v self) (b_of v self) len doc_id query_terms →
  ∃ s, scorer v self query_terms doc_id = Ok (Fin s)
       ∧ (0 <= s <= (k_of v self + 1) * idf_total self query_terms)%R.
Proof.
  intros Hne Hlen Hlen0 Havg Hk Hb Hidf Htf Hfin.
  pose proof (norm_value_nonneg self _ _ len Hk Hb Hlen0 Havg) as Hnorm.
  exists (score_value self (k_of v self) (b_of v self) len doc_id query_terms).
  split; [rewrite scorer_body; apply bm25_body_Fin; [done|done|lra|done]|].
  assert (∀ t, t ∈ query_terms →
     (0 <= term_value self (k_of v self) (b_of v self) len doc_id t
         <= (k_of v self + 1)
            * idf_value (size (doc_lengths self)) (num_docs_with_term self t))%R) as Hterm.
  { intros t Ht. unfold term_value.
    pose proof (idf_value_nonneg _ _ (Hidf t Ht)) as Hi.
    destruct (Hfin t Ht) as [_ Hden]. pose proof (Htf t Ht) as Hf. apply IZR_le in Hf.
    pose proof (saturation_bounds _ _ _ Hk Hnorm Hf Hden) as [Hlo Hhi].
    split; [by apply Rmult_le_pos|].
    rewrite (Rmult_comm (k_of v self + 1)). by apply Rmult_le_compat_l. }
  unfold score_value, idf_total. split.
  - apply foldr_Rplus_nonneg. intros t Ht. by apply Hterm.
  - rewrite <- foldr_Rplus_scale. apply foldr_Rplus_le. intros t Ht. by apply Hterm.
Qed.

Lemma sample_plain_finite_terms :
  finite_terms sample_plain 1.5 0.75 10 1 ["cat"; "dog"].
Proof.
  assert (0 <= norm_value sample_plain 1.5 0.75 10)%R as Hn.
  { apply norm_value_nonneg; [lra|lra|lia|].
    unfold sample_plain. cbn [avg_doc_length ranker_of]. lra. }
  assert (0 < norm_value sample_plain 1.5 0.75 10)%R as Hp.
  { apply norm_value_pos; [lra|lra|lia|].
    unfold sample_plain. cbn [avg_doc_length ranker_of]. lra. }
  intros t Ht. apply list_elem_of_In in Ht. destruct Ht as [<-|[<-|[]]].
  - split; [exists 2%Z; reflexivity|].
    replace (tf_int sample_plain "cat" 1) with 2%Z by reflexivity. lra.
  - split; [exists 0%Z; reflexivity|].
    replace (tf_int sample_plain "dog" 1) with 0%Z by reflexivity. lra.
Qed.

Lemma bm25_score_bounds_witness :
  ∃ s, scorer Bm25 sample_plain ["cat"; "dog"] 1 = Ok (Fin s)
       ∧ (0 <= s <= (k_of Bm25 sample_plain + 1) * idf_total sample_plain ["cat"; "dog"])%R.
Proof.
  apply (bm25_score_bounds Bm25 sample_plain ["cat"; "dog"] 1 10).
  - discriminate.
  - reflexivity.
  - lia.
  - unfold sample_plain. cbn [avg_doc_length ranker_of]. lra.
  - unfold sample_plain. cbn [k_of k1 ranker_of]. lra.
  - unfold sample_plain. cbn [b_of b ranker_of]. lra.
  - intros t Ht. apply list_elem_of_In in Ht.
    destruct Ht as [<-|[<-|[]]]; unfold num_docs_with_term, sample_plain;
      cbn [inverted_index doc_lengths ranker_of]; vm_compute; lia.
  - intros t Ht. apply list_elem_of_In in Ht.
    destruct Ht as [<-|[<-|[]]]; vm_compute; discriminate.
  - exact sample_plain_finite_terms.
Defined.

(** X4. Whenever one query term has the denominator 0 for a known document,
    the score that either scorer returns is NaN, whatever the other
    terms add: the mask multiplies a quotient that is already NaN or
    infinite. *)
Theorem bm25_zero_denominator_is_nan (v : bm25_variant) (self : AdvancedRanking)
    (query_terms : list string) (doc_id len : Z) (t : string) :
  doc_lengths self !! doc_id = Some len →
  (∀ u, u ∈ query_terms → numeric_tf self u doc_id) →
  t ∈ query_terms →
  bm25_denominator self (k_of v self) (b_of v self) len (tf_value self t doc_id) = Fin 0 →
  scorer v self query_terms doc_id = Ok NaN.
Proof. intros. rewrite scorer_body. by eapply zero_denominator_poisons_score. Qed.

Lemma bm25_zero_denominator_is_nan_witness :
  scorer Bm25Plus with_empty_document ["dog"; "cat"] 2 = Ok NaN.
Proof.
  apply (bm25_zero_denominator_is_nan Bm25Plus with_empty_document ["dog"; "cat"] 2 0 "cat").
  - reflexivity.
  - intros u Hu. apply list_elem_of_In in Hu.
    destruct Hu as [<-|[<-|[]]]; exists 0%Z; reflexivity.
  - apply list_elem_of_In. right. left. reflexivity.
  - replace (tf_value with_empty_document "cat" 2) with (Fin 0) by reflexivity.
    unfold bm25_denominator.
    rewrite bm25_norm_Fin
      by (unfold with_empty_document; cbn [avg_doc_length ranker_of]; lra).
    unfold norm_value, with_empty_document.
    cbn [k_of b_of k1_plus b_plus avg_doc_length ranker_of np_add].
    f_equal. unfold Rdiv. rewrite Rmult_0_l. lra.
Defined.

(** X5. A frequency that is not a number, recorded for a known document
    under a query term, makes either scorer raise [TypeError]. *)
Theorem bm25_non_numeric_frequency (v : bm25_variant) (self : AdvancedRanking)
    (query_terms : list string) (doc_id len : Z) (t : string) :
  doc_lengths self !! doc_id = Some len →
  t ∈ query_terms →
  (∀ z, calculate_tf self t doc_id ≠ PyInt z) →
  scorer v self query_terms doc_id = Raise TypeError.
Proof.
  intros Hlen Ht Hbad. rewrite scorer_body.
  apply (bm25_body_TypeError _ _ _ _ _ len t); [done|done|].
  intros [z Hz]. by apply (Hbad z).
Qed.

Lemma bm25_non_numeric_frequency_witness :
  scorer Bm25 malformed2 ["dog"; "cat"] 2 = Raise TypeError.
Proof.
  apply (bm25_non_numeric_frequency Bm25 malformed2 ["dog"; "cat"] 2 10 "cat").
  - reflexivity.
  - apply list_elem_of_In. right. left. reflexivity.
  - intros z. discriminate.
Defined.

(** ** Further properties of the orchestrator *)

Section orchestrator_extras.

Variable expand_query : string → list string.

Lemma collected_scores_entries self query_terms completed scores :
  mapM (collect_score self query_terms) completed = Ok scores →
  ∀ d s, (d, s) ∈ scores →
    ∃ bm25_score,
      calculate_bm25_plus_score self query_terms d = Ok bm25_score
      ∧ s = combine_scores self bm25_score
              (default (Fin 0) (page_rank_scores self !! NInt d)).
Proof.
  intros Hscores%mapM_Ok_inv d s Hds.
  induction Hscores as [|x p l k Hx _ IH]; [by apply elem_of_nil in Hds|].
  apply elem_of_cons in Hds as [<-|Hds]; [|by apply IH].
  unfold collect_score in Hx.
  destruct (calculate_bm25_plus_score self query_terms x) as [bm|] eqn:Hbm;
    cbn in Hx; [|discriminate].
  injection Hx as Hd Hs. subst. by exists bm.
Qed.

(** X6. Under any completion order, the sequence that [rank_documents]
    returns lists every document of [doc_lengths] exactly once, each
    with the combination of its plus score and of its authority score
    (0 when the mapping has none for it). *)
Theorem rank_documents_complete (self : AdvancedRanking) (completed : list Z)
    (query : string) (res : list (Z * float64)) :
  schedule self completed →
  rank_documents expand_query self completed query = Ok res →
  res.*1 ≡ₚ (map_to_list (doc_lengths self)).*1
  ∧ NoDup res.*1
  ∧ ∀ d s, (d, s) ∈ res →
      ∃ bm25_score,
        calculate_bm25_plus_score self (expand_query query) d = Ok bm25_score
        ∧ s = combine_scores self bm25_score
                (default (Fin 0) (page_rank_scores self !! NInt d)).
Proof.
  intros Hsched (scores & Hscores & ->)%rank_documents_Ok_inv.
  assert ((py_sorted np_lt snd true scores).*1 ≡ₚ (map_to_list (doc_lengths self)).*1)
    as Hperm.
  { rewrite sorted_scores_Permutation, (collected_scores_fst _ _ _ _ Hscores).
    exact Hsched. }
  split_and!; [done| |].
  - rewrite Hperm. apply NoDup_fst_map_to_list.
  - intros d s Hds. rewrite sorted_scores_Permutation in Hds.
    by eapply collected_scores_entries.
Qed.

(** X7. Under any completion order: when [rank_documents] returns a
    ranking of at least one document, the expanded query has a term and
    no frequency read for a query term in a document is [None] or a
    string; and it does return a ranking, with one entry for every
    document, when the expanded query has a term and the document
    lengths and the frequencies read for the query terms are integers
    of the 64-bit range. *)
Theorem rank_documents_returns_when (self : AdvancedRanking) (completed : list Z)
    (query : string) :
  schedule self completed →
  ((∃ res, rank_documents expand_query self completed query = Ok res) →
     completed = []
     ∨ (expand_query query ≠ []
        ∧ ∀ d t, d ∈ completed → t ∈ expand_query query →
            calculate_tf self t d ≠ PyNone ∧ ∀ s, calculate_tf self t d ≠ PyStr s))
  ∧ (expand_query query ≠ [] →
     (∀ d len, doc_lengths self !! d = Some len → fits_int64 len) →
     (∀ d t, d ∈ completed → t ∈ expand_query query →
        ∃ z, calculate_tf self t d = PyInt z ∧ fits_int64 z) →
     ∃ res, rank_documents expand_query self completed query = Ok res
            ∧ res.*1 ≡ₚ completed).
Proof.
  intros Hsched.
  assert (∀ d, d ∈ completed → is_Some (doc_lengths self !! d)) as Hknown.
  { intros d Hd. rewrite Hsched in Hd.
    apply list_elem_of_fmap in Hd as ([d' len] & -> & Hd).
    apply elem_of_map_to_list in Hd. by eexists. }
  split.
  - intros [res Hres]. destruct completed as [|d0 l]; [by left|right].
    destruct (decide (expand_query query = [])) as [Hq|Hq].
    { by rewrite (rank_documents_empty_query expand_query self _ _ Hq) in Hres. }
    split; [done|]. intros d t Hd Ht.
    apply rank_documents_Ok_inv in Hres as (scores & Hscores & _).
    assert (d ∈ scores.*1) as Hin
      by (by rewrite (collected_scores_fst _ _ _ _ Hscores)).
    apply list_elem_of_fmap in Hin as ([d' s] & -> & Hin).
    destruct (collected_scores_entries _ _ _ _ Hscores _ _ Hin) as (bm & Hbm & _).
    cbn in *. destruct (Hknown d' Hd) as [len Hlen].
    destruct (calculate_tf self t d') as [z| |] eqn:Htf; [done| |];
      unfold calculate_bm25_plus_score in Hbm;
      rewrite (bm25_body_TypeError _ _ _ _ _ len t) in Hbm; try done;
      intros [z Hz]; congruence.
  - intros Hq _ Hnum.
    apply (rank_documents_returns expand_query self completed query Hq Hknown).
    intros d t Hd Ht. destruct (Hnum d t Hd Ht) as (z & Hz & _). by exists z.
Qed.

End orchestrator_extras.

Lemma rank_documents_complete_witness :
  (py_sorted np_lt snd true (cat_scores sample3 [3%Z; 1%Z; 2%Z])).*1
    ≡ₚ (map_to_list (doc_lengths sample3)).*1
  ∧ NoDup (py_sorted np_lt snd true (cat_scores sample3 [3%Z; 1%Z; 2%Z])).*1
  ∧ ∀ d s, (d, s) ∈ py_sorted np_lt snd true (cat_scores sample3 [3%Z; 1%Z; 2%Z]) →
      ∃ bm25_score,
        calculate_bm25_plus_score sample3 (expand_single "cat") d = Ok bm25_score
        ∧ s = combine_scores sample3 bm25_score
                (default (Fin 0) (page_rank_scores sample3 !! NInt d)).
Proof.
  apply (rank_documents_complete expand_single sample3 [3%Z; 1%Z; 2%Z] "cat").
  - unfold schedule. vm_compute.
    first [reflexivity | apply Permutation_sym; by do 2 econstructor
          | solve [eauto using Permutation] | by apply NoDup_Permutation; [..|intros; set_solver]].
  - apply sample_rank_cat; [reflexivity|]. apply three_lengths_lookup.
Defined.

Lemma rank_documents_returns_when_witness :
  ∃ res, rank_documents expand_single sample3 [3%Z; 1%Z; 2%Z] "cat" = Ok res
         ∧ res.*1 ≡ₚ [3%Z; 1%Z; 2%Z].
Proof.
  assert (schedule sample3 [3%Z; 1%Z; 2%Z]) as Hsched.
  { unfold schedule. vm_compute.
    first [reflexivity | apply Permutation_sym; by do 2 econstructor
          | solve [eauto using Permutation]
          | by apply NoDup_Permutation; [..|intros; set_solver]]. }
  apply (proj2 (rank_documents_returns_when expand_single sample3
                  [3%Z; 1%Z; 2%Z] "cat" Hsched)).
  - discriminate.
  - intros d len Hlen. unfold sample3 in Hlen.
    cbn [doc_lengths ranker_of] in Hlen. unfold three_lengths in Hlen.
    repeat (apply lookup_insert_Some in Hlen as [[_ <-]|[_ Hlen]];
            [unfold fits_int64; lia|]).
    apply lookup_singleton_Some in Hlen as [_ <-]. unfold fits_int64. lia.
  - intros d t Hd Ht. apply list_elem_of_In in Hd, Ht.
    destruct Ht as [<-|[]].
    destruct Hd as [<-|[<-|[<-|[]]]];
      [exists 0%Z|exists 2%Z|exists 0%Z]; (split; [reflexivity|unfold fits_int64; lia]).
Defined.

(** X8. A ranker built by the constructor holds no authority score,
    whatever the indexer and the eigen solver give: the graph mixes
    string and integer nodes as soon as it has an edge, sorting them
    faults, and the handler returns the empty mapping. Such a ranker
    ranks with authority 0 for every document. *)
Theorem constructed_ranker_has_no_authority
    (eigs : list (list R) → result (list float64))
    (expand_query : string → list string) (indexer : Indexing)
    (k b' damping cw pw kp bp : R) (completed : list Z) (query : string) :
  let self := init eigs indexer k b' damping cw pw kp bp in
  page_rank_scores self = ∅
  ∧ rank_documents expand_query self completed query
    = rank_without_authority expand_query self completed query.
Proof.
  intros self.
  assert (page_rank_scores self = ∅) as Hempty
    by (unfold self; by rewrite init_page_rank_scores, page_rank_scores_empty).
  split; [done|]. unfold rank_documents, rank_without_authority.
  f_equal. apply mapM_ext. intros doc_id. unfold collect_score.
  by rewrite Hempty, lookup_empty.
Qed.

(** On a graph that has an edge the eigen solver is never reached:
    the body faults while it sorts the nodes, whatever the solver would
    return. *)
Lemma page_rank_body_non_degenerate
    (eigs : list (list R) → result (list float64))
    (idx : InvertedIndex) (dl : DocLengths) :
  idx ≠ ∅ → graph_edges idx ≠ [] →
  page_rank_body eigs idx dl = Raise TypeError
  ∧ ∀ m, page_rank_body eigs idx dl ≠ Ok m.
Proof.
  intros Hidx Hedges.
  destruct (page_rank_body_edges eigs idx dl Hedges) as [Hbody|?]; [|done].
  split; [done|]. intros m. by rewrite Hbody.
Qed.

(** * Query augmentation *)

Lemma foldl_app_bind {A B} (f : A → list B) (acc : list B) (l : list A) :
  foldl (λ acc x, acc ++ f x) acc l = acc ++ (l ≫= f).
Proof.
  revert acc. induction l as [|x l IH]; intros acc; cbn.
  - by rewrite app_nil_r.
  - by rewrite IH, app_assoc.
Qed.

Lemma foldl_ext_fun {A B} (f g : B → A → B) (acc : B) (l : list A) :
  (∀ b x, f b x = g b x) → foldl f acc l = foldl g acc l.
Proof.
  intros Hfg. revert acc. induction l as [|x l IH]; intros acc; cbn; [done|].
  by rewrite Hfg, IH.
Qed.

Lemma py_int_ge_1 (m : R) : (1 <= py_int m)%Z ↔ (1 <= m)%R.
Proof.
  unfold py_int. destruct (Rle_dec 0 m) as [Hpos|Hneg].
  - destruct (base_Int_part m) as [Hle Hgt]. split.
    + intros H%IZR_le. lra.
    + intros H. assert (0 < IZR (Int_part m))%R as H0 by lra.
      apply lt_IZR in H0. lia.
  - destruct (base_Int_part (- m)) as [Hle Hgt]. split.
    + intros H. assert (-1 < IZR (Int_part (- m)))%R as H0 by lra.
      apply lt_IZR in H0. lia.
    + intros H. lra.
Qed.

Lemma py_int_IZR (z : Z) : py_int (IZR z) = z.
Proof.
  unfold py_int. destruct (Rle_dec 0 (IZR z)) as [Hpos|Hneg].
  - symmetry. apply Int_part_spec. lra.
  - rewrite <- opp_IZR. rewrite <- (Int_part_spec (IZR (- z)) (- z)%Z); [lia|lra].
Qed.

Lemma apply_boosting_bind query_terms boost_terms :
  apply_boosting query_terms boost_terms
  = query_terms ≫= (λ t, replicate (boost_copies boost_terms t) t).
Proof.
  unfold apply_boosting.
  rewrite (foldl_ext_fun _ (λ acc t, acc ++ replicate (boost_copies boost_terms t) t)).
  - by rewrite foldl_app_bind.
  - intros acc t. unfold boost_copies, py_repeat. by destruct (boost_terms !! t).
Qed.

Lemma exact_match_boosting_bind query_terms exact_match_terms :
  exact_match_boosting query_terms exact_match_terms
  = query_terms ≫= (λ t, replicate (if bool_decide (t ∈ exact_match_terms) then 3 else 1) t).
Proof.
  unfold exact_match_boosting.
  rewrite (foldl_ext_fun _ (λ acc t,
    acc ++ replicate (if bool_decide (t ∈ exact_match_terms) then 3 else 1) t)).
  - by rewrite foldl_app_bind.
  - intros acc t. by case_bool_decide.
Qed.

Lemma occurrences_app t l1 l2 :
  occurrences t (l1 ++ l2) = occurrences t l1 + occurrences t l2.
Proof. unfold occurrences. by rewrite filter_app, length_app. Qed.

Lemma occurrences_replicate t u n :
  occurrences t (replicate n u) = if decide (t = u) then n else 0.
Proof.
  unfold occurrences. induction n as [|n IH]; [by case_decide|].
  change (replicate (S n) u) with (u :: replicate n u).
  rewrite filter_cons. destruct (decide (t = u)) as [Heq|Hne]; cbn [length];
    rewrite IH; by destruct (decide (t = u)).
Qed.

Lemma occurrences_cons t u l :
  occurrences t (u :: l) = (if decide (t = u) then 1 else 0) + occurrences t l.
Proof. unfold occurrences. rewrite filter_cons. by case_decide. Qed.

Lemma occurrences_bind_replicate (n : string → nat) t l :
  occurrences t (l ≫= (λ u, replicate (n u) u)) = occurrences t l * n t.
Proof.
  induction l as [|u l IH]; [done|].
  rewrite bind_cons, occurrences_app, occurrences_replicate, occurrences_cons, IH.
  case_decide; subst; lia.
Qed.

Lemma elem_of_occurrences t l : t ∈ l ↔ 0 < occurrences t l.
Proof.
  unfold occurrences. induction l as [|u l IH].
  - split; [by intros ?%elem_of_nil|cbn; lia].
  - rewrite elem_of_cons, filter_cons. case_decide; cbn; [|rewrite IH].
    + split; [lia|by left].
    + split; [by intros [?|?]|by right].
Qed.

(** X10. [apply_boosting] repeats each term as many times as the integer
    part of its multiplier says, and keeps a term without a multiplier
    once: the number of occurrences of every term is multiplied by that
    number of copies. *)
Theorem apply_boosting_occurrences (query_terms : list string)
    (boost_terms : gmap string R) (t : string) :
  occurrences t (apply_boosting query_terms boost_terms)
  = occurrences t query_terms * boost_copies boost_terms t.
Proof. rewrite apply_boosting_bind. apply occurrences_bind_replicate. Qed.

(** X11. A term is in the boosted query exactly when it is in the query and
    its multiplier, if it has one, is at least 1: a multiplier below 1
    removes the term from the query, and no term is ever added. *)
Theorem apply_boosting_keeps (query_terms : list string)
    (boost_terms : gmap string R) (t : string) :
  t ∈ apply_boosting query_terms boost_terms
  ↔ t ∈ query_terms
    ∧ match boost_terms !! t with Some m => (1 <= m)%R | None => True end.
Proof.
  rewrite !elem_of_occurrences, apply_boosting_bind, occurrences_bind_replicate.
  unfold boost_copies. destruct (boost_terms !! t) as [m|].
  - rewrite <- py_int_ge_1. split; [intros H; split; nia|intros [? ?]; nia].
  - split; [intros H; split; [lia|done]|intros [? _]; lia].
Qed.

(** X12. The terms that have no multiplier pass through [apply_boosting]
    unchanged and in their order. *)
Theorem apply_boosting_unboosted (query_terms : list string)
    (boost_terms : gmap string R) :
  filter (λ t, boost_terms !! t = None) (apply_boosting query_terms boost_terms)
  = filter (λ t, boost_terms !! t = None) query_terms.
Proof.
  rewrite apply_boosting_bind. induction query_terms as [|u l IH]; [done|].
  rewrite bind_cons, filter_app, IH, filter_cons. unfold boost_copies.
  case_decide as Hu.
  - rewrite Hu. change (replicate 1 u) with [u].
    by rewrite filter_cons, decide_True.
  - destruct (boost_terms !! u) as [m|] eqn:Hm; [|done].
    assert (filter (λ t, boost_terms !! t = None) (replicate (Z.to_nat (py_int m)) u) = [])
      as ->; [|done].
    induction (Z.to_nat (py_int m)) as [|n IHn]; [done|].
    change (replicate (S n) u) with (u :: replicate n u).
    rewrite filter_cons, decide_False; [done|]. by rewrite Hm.
Qed.

(** X13. [exact_match_boosting] is [apply_boosting] with the multiplier 3
    for every exact-match term. *)
Theorem exact_match_boosting_as_boost (query_terms exact_match_terms : list string) :
  exact_match_boosting query_terms exact_match_terms
  = apply_boosting query_terms (gset_to_gmap 3%R (list_to_set exact_match_terms)).
Proof.
  rewrite exact_match_boosting_bind, apply_boosting_bind.
  apply list_bind_ext; [|done]. intros t. f_equal.
  unfold boost_copies. rewrite lookup_gset_to_gmap.
  case_bool_decide as Ht.
  - rewrite option_guard_True by (by apply elem_of_list_to_set). cbn.
    by rewrite (py_int_IZR 3).
  - rewrite option_guard_False; [done|]. by rewrite elem_of_list_to_set.
Qed.

(** X14. [exact_match_boosting] triples the occurrences of an exact-match
    term and keeps the others; it adds two terms per exact-match term
    of the query; and applied twice it leaves nine occurrences for
    each one of an exact-match term. *)
Theorem exact_match_boosting_occurrences (query_terms exact_match_terms : list string)
    (t : string) :
  occurrences t (exact_match_boosting query_terms exact_match_terms)
    = occurrences t query_terms * (if bool_decide (t ∈ exact_match_terms) then 3 else 1)
  ∧ length (exact_match_boosting query_terms exact_match_terms)
    = length query_terms + 2 * length (filter (.∈ exact_match_terms) query_terms)
  ∧ (t ∈ exact_match_terms →
       occurrences t (exact_match_boosting
                        (exact_match_boosting query_terms exact_match_terms)
                        exact_match_terms)
       = 9 * occurrences t query_terms).
Proof.
  split_and!.
  - rewrite exact_match_boosting_bind.
    apply (occurrences_bind_replicate
             (λ u, if bool_decide (u ∈ exact_match_terms) then 3 else 1)).
  - rewrite exact_match_boosting_bind.
    induction query_terms as [|u l IH]; [done|].
    rewrite bind_cons, length_app, IH, length_replicate, filter_cons.
    case_bool_decide; [rewrite decide_True by done|rewrite decide_False by done];
      cbn; lia.
  - intros Ht. rewrite !exact_match_boosting_bind.
    rewrite !(occurrences_bind_replicate
                (λ u, if bool_decide (u ∈ exact_match_terms) then 3 else 1)).
    rewrite bool_decide_eq_true_2 by done. lia.
Qed.

Lemma score_value_app self k b' len doc_id l1 l2 :
  score_value self k b' len doc_id (l1 ++ l2)
  = (score_value self k b' len doc_id l1 + score_value self k b' len doc_id l2)%R.
Proof.
  unfold score_value. induction l1 as [|t l1 IH]; cbn; [lra|]. rewrite IH. lra.
Qed.

Lemma score_value_replicate self k b' len doc_id n t :
  score_value self k b' len doc_id (replicate n t)
  = (INR n * term_value self k b' len doc_id t)%R.
Proof.
  induction n as [|n IH]; [unfold score_value; cbn; lra|].
  change (replicate (S n) t) with ([t] ++ replicate n t).
  rewrite score_value_app, IH, S_INR. unfold score_value. cbn. lra.
Qed.

(** X15. Boosting the exact-match terms adds twice their contribution to the
    score: when every query term has an integer frequency and a
    non-zero denominator for a known document, either scorer returns,
    for the boosted query, the score of the query plus twice the score
    of its exact-match terms. *)
Theorem bm25_exact_match_boost (v : bm25_variant) (self : AdvancedRanking)
    (query_terms exact_match_terms : list string) (doc_id len : Z) :
  query_terms ≠ [] →
  doc_lengths self !! doc_id = Some len →
  (avg_doc_length self + 1e-6 ≠ 0)%R →
  finite_terms self (k_of v self) (b_of v self) len doc_id query_terms →
  scorer v self query_terms doc_id
    = Ok (Fin (score_value self (k_of v self) (b_of v self) len doc_id query_terms))
  ∧ scorer v self (exact_match_boosting query_terms exact_match_terms) doc_id
    = Ok (Fin (score_value self (k_of v self) (b_of v self) len doc_id query_terms
               + 2 * score_value self (k_of v self) (b_of v self) len doc_id
                       (filter (.∈ exact_match_terms) query_terms))).
Proof.
  intros Hne Hlen Havg Hfin. rewrite !scorer_body.
  split; [by apply bm25_body_Fin|].
  rewrite (bm25_body_Fin _ _ _ _ _ len); [|..|done|].
  - do 2 f_equal. rewrite exact_match_boosting_bind.
    clear Hne Hfin. induction query_terms as [|t l IH]; [unfold score_value; cbn; lra|].
    rewrite bind_cons, score_value_app, score_value_replicate, IH, filter_cons.
    change (t :: l) with ([t] ++ l). rewrite score_value_app.
    assert (score_value self (k_of v self) (b_of v self) len doc_id [t]
            = term_value self (k_of v self) (b_of v self) len doc_id t) as Ht
      by (unfold score_value; cbn; lra).
    rewrite Ht. case_bool_decide.
    + rewrite decide_True by done. change (t :: ?l') with ([t] ++ l').
      rewrite score_value_app, Ht. cbn [INR]. lra.
    + rewrite decide_False by done. cbn [INR]. lra.
  - destruct query_terms as [|t l]; [done|].
    rewrite exact_match_boosting_bind, bind_cons. by case_bool_decide.
  - done.
  - intros u Hu. apply Hfin.
    rewrite exact_match_boosting_bind in Hu.
    apply list_elem_of_bind in Hu as (y & Hy & Hyl).
    by apply elem_of_replicate in Hy as [-> _].
Qed.

Lemma bm25_exact_match_boost_witness :
  scorer Bm25 sample_plain ["cat"; "dog"] 1
    = Ok (Fin (score_value sample_plain 1.5 0.75 10 1 ["cat"; "dog"]))
  ∧ scorer Bm25 sample_plain (exact_match_boosting ["cat"; "dog"] ["cat"]) 1
    = Ok (Fin (score_value sample_plain 1.5 0.75 10 1 ["cat"; "dog"]
               + 2 * score_value sample_plain 1.5 0.75 10 1
                       (filter (.∈ ["cat"]) ["cat"; "dog"]))).
Proof.
  apply (bm25_exact_match_boost Bm25 sample_plain ["cat"; "dog"] ["cat"] 1 10).
  - discriminate.
  - reflexivity.
  - unfold sample_plain. cbn [avg_doc_length ranker_of]. lra.
  - exact sample_plain_finite_terms.
Defined.

(** ** Phrase matching and query expansion *)

Lemma Counter_from_lookup (c : gmap string nat) (xs : list string) (x : string) :
  default 0 (foldl (λ c y, <[y := S (default 0 (c !! y))]> c) c xs !! x)
  = default 0 (c !! x) + occurrences x xs.
Proof.
  revert c. induction xs as [|y xs IH]; intros c; [cbn; lia|].
  cbn [foldl]. rewrite IH, occurrences_cons.
  destruct (decide (x = y)) as [->|Hne].
  - rewrite lookup_insert_eq. cbn. lia.
  - rewrite lookup_insert_ne by done. lia.
Qed.

Lemma Counter_lookup (xs : list string) (x : string) :
  default 0 (Counter xs !! x) = occurrences x xs.
Proof. unfold Counter. by rewrite Counter_from_lookup, lookup_empty. Qed.

Lemma occurrences_NoDup (x : string) (xs : list string) :
  NoDup xs → occurrences x xs = if decide (x ∈ xs) then 1 else 0.
Proof.
  induction 1 as [|y xs Hy _ IH]; [done|].
  rewrite occurrences_cons, IH.
  destruct (decide (x = y)) as [->|Hne].
  - rewrite decide_False by done. rewrite decide_True by left. done.
  - destruct (decide (x ∈ xs)) as [Hin|Hnin].
    + by rewrite decide_True by (by right).
    + rewrite decide_False; [done|]. by intros [?|?]%elem_of_cons.
Qed.

Lemma sum_list_indicator (P : string → Prop) `{!∀ x, Decision (P x)} (l : list string) :
  sum_list ((λ t, if decide (P t) then 1 else 0) <$> l) = length (filter P l).
Proof.
  induction l as [|t l IH]; [done|].
  rewrite fmap_cons, filter_cons. cbn [sum_list_with]. rewrite IH.
  by destruct (decide (P t)).
Qed.

Section language_properties.

Variable nlp : string → list string.
Variable wordnet_synsets : string → list (list string).
Variable re_findall_words : string → list string.

(** X16. [improved_phrase_matching] returns the number of query terms, each
    counted as often as the query repeats it, that are words of the
    text: a word counts once however often the text repeats it, and
    the result never exceeds the length of the query. *)
Theorem improved_phrase_matching_counts (query_terms : list string) (doc_text : string) :
  improved_phrase_matching re_findall_words query_terms doc_text
    = length (filter (.∈ re_findall_words doc_text) query_terms)
  ∧ improved_phrase_matching re_findall_words query_terms doc_text ≤ length query_terms.
Proof.
  assert (improved_phrase_matching re_findall_words query_terms doc_text
          = length (filter (.∈ re_findall_words doc_text) query_terms)) as Heq.
  { unfold improved_phrase_matching, tokenize_with_phrases.
    rewrite <- sum_list_indicator. f_equal.
    apply Forall_fmap_ext_1, Forall_forall. intros t _.
    rewrite Counter_lookup, occurrences_NoDup by apply NoDup_elements.
    destruct (decide (t ∈ re_findall_words doc_text)) as [Hin|Hnin].
    - rewrite decide_True; [done|]. by apply elem_of_elements, elem_of_list_to_set.
    - rewrite decide_False; [done|]. by rewrite elem_of_elements, elem_of_list_to_set. }
  split; [done|]. rewrite Heq. apply length_filter.
Qed.

Lemma elem_of_foldl_union {A} (g : A → gset string) (acc : gset string) (l : list A) x :
  x ∈ foldl (λ acc y, acc ∪ g y) acc l ↔ x ∈ acc ∨ ∃ y, y ∈ l ∧ x ∈ g y.
Proof.
  revert acc. induction l as [|y l IH]; intros acc; cbn [foldl].
  - split; [by left|]. intros [?|(y & Hy & _)]; [done|by apply elem_of_nil in Hy].
  - rewrite IH, elem_of_union. split.
    + intros [[?|?]|(z & Hz & Hx)]; [by left|right; exists y; split; [by left|done]|].
      right. exists z. split; [by right|done].
    + intros [?|(z & [->|Hz]%elem_of_cons & Hx)]; [by left; left|by left; right|].
      right. by exists z.
Qed.

Lemma elem_of_get_synonyms term x :
  x ∈ get_synonyms wordnet_synsets term ↔ ∃ syn, syn ∈ wordnet_synsets term ∧ x ∈ syn.
Proof.
  unfold get_synonyms. rewrite elem_of_elements.
  rewrite (foldl_ext_fun _ (λ acc syn, acc ∪ list_to_set syn)).
  - rewrite elem_of_foldl_union. setoid_rewrite elem_of_list_to_set.
    split; [intros [?%elem_of_empty|?]; [done|done]|by right].
  - intros acc syn. apply set_eq. intros y.
    rewrite (elem_of_foldl_union (λ lemma, {[lemma]})), elem_of_union, elem_of_list_to_set.
    split.
    + intros [?|(z & Hz & ->%elem_of_singleton)]; [by left|by right].
    + intros [?|?]; [by left|]. right. exists y. split; [done|by apply elem_of_singleton].
Qed.

Lemma elem_of_expand_query query x :
  x ∈ expand_query nlp wordnet_synsets query
  ↔ ∃ token, token ∈ nlp query
             ∧ (x = token ∨ ∃ syn, syn ∈ wordnet_synsets token ∧ x ∈ syn).
Proof.
  unfold expand_query. rewrite elem_of_elements.
  rewrite (foldl_ext_fun _ (λ acc token,
    acc ∪ ({[token]} ∪ list_to_set (get_synonyms wordnet_synsets token))))
    by (intros; by rewrite (assoc_L (∪))).
  rewrite elem_of_foldl_union. split.
  - intros [?%elem_of_empty|(token & Htok & Hx)]; [done|].
    exists token. split; [done|].
    apply elem_of_union in Hx as [->%elem_of_singleton|Hx]; [by left|right].
    apply elem_of_list_to_set in Hx. by apply elem_of_get_synonyms in Hx.
  - intros (token & Htok & Hx). right. exists token. split; [done|].
    apply elem_of_union. destruct Hx as [->|Hx]; [left; by apply elem_of_singleton|right].
    apply elem_of_list_to_set. by apply elem_of_get_synonyms.
Qed.

(** X17. The expanded query holds every token of the query and every lemma
    name of every synset of a token, once each, and nothing else. *)
Theorem expand_query_members (query : string) :
  NoDup (expand_query nlp wordnet_synsets query)
  ∧ (∀ token, token ∈ nlp query → token ∈ expand_query nlp wordnet_synsets query)
  ∧ ∀ x, x ∈ expand_query nlp wordnet_synsets query
         ↔ ∃ token, token ∈ nlp query
                    ∧ (x = token ∨ ∃ syn, syn ∈ wordnet_synsets token ∧ x ∈ syn).
Proof.
  split_and!; [apply NoDup_elements| |apply elem_of_expand_query].
  intros token Htok. apply elem_of_expand_query. exists token. split; [done|by left].
Qed.

Lemma expand_query_nil query :
  expand_query nlp wordnet_synsets query = [] ↔ nlp query = [].
Proof.
  split.
  - intros Hnil. destruct (nlp query) as [|token l] eqn:Hq; [done|exfalso].
    assert (token ∈ expand_query nlp wordnet_synsets query) as Hin.
    { apply elem_of_expand_query. exists token. rewrite Hq. split; [by left|by left]. }
    rewrite Hnil in Hin. by apply elem_of_nil in Hin.
  - intros Hq. unfold expand_query. rewrite Hq. cbn. apply elements_empty.
Qed.

(** X18. A query in which the language model finds no token expands to no
    term, and only such a query does; on it, [rank_documents] raises
    [ValueError] as soon as there is a document, and returns the empty
    ranking when there is none. *)
Theorem rank_documents_without_tokens (self : AdvancedRanking) (completed : list Z)
    (query : string) :
  (expand_query nlp wordnet_synsets query = [] ↔ nlp query = [])
  ∧ (nlp query = [] →
       rank_documents (expand_query nlp wordnet_synsets) self completed query
       = match completed with [] => Ok [] | _ => Raise ValueError end).
Proof.
  split; [apply expand_query_nil|].
  intros Hq%expand_query_nil. destruct completed as [|d l]; [done|].
  by apply rank_documents_empty_query.
Qed.

End language_properties.

(** ** Query rewriting *)

Lemma str_app_cons (c : Ascii.ascii) (s1 s2 : string) :
  String c s1 +:+ s2 = String c (s1 +:+ s2).
Proof. done. Qed.

Lemma str_app_nil (s : string) : EmptyString +:+ s = s.
Proof. done. Qed.

Lemma str_length_app (s1 s2 : string) :
  String.length (s1 +:+ s2) = String.length s1 + String.length s2.
Proof.
  induction s1 as [|c s1 IH]; [done|].
  rewrite str_app_cons. cbn [String.length]. by rewrite IH.
Qed.

Lemma str_app_assoc (s1 s2 s3 : string) : (s1 +:+ s2) +:+ s3 = s1 +:+ (s2 +:+ s3).
Proof.
  induction s1 as [|c s1 IH]; [done|]. rewrite !str_app_cons. by rewrite IH.
Qed.

Lemma prefix_true_iff (s1 s2 : string) :
  String.prefix s1 s2 = true ↔ ∃ rest, s2 = s1 +:+ rest.
Proof.
  revert s1. induction s2 as [|c s2 IH]; intros [|a s1]; cbn [String.prefix].
  - split; [by exists EmptyString|done].
  - split; [done|]. intros [rest Hrest]. by rewrite str_app_cons in Hrest.
  - split; [by exists (String c s2)|done].
  - destruct (Ascii.ascii_dec a c) as [->|Hne].
    + rewrite IH. split; intros [rest Hrest]; exists rest.
      * by rewrite str_app_cons, <- Hrest.
      * rewrite str_app_cons in Hrest. by injection Hrest.
    + split; [done|]. intros [rest Hrest].
      rewrite str_app_cons in Hrest. injection Hrest as Hc _. by destruct Hne.
Qed.

Lemma prefix_length (s1 s2 : string) :
  String.prefix s1 s2 = true → String.length s1 ≤ String.length s2.
Proof. intros [rest ->]%prefix_true_iff. rewrite str_length_app. lia. Qed.

Lemma occurs_cons sub c s :
  occurs sub (String c s) ↔ String.prefix sub (String c s) = true ∨ occurs sub s.
Proof.
  split.
  - intros ([|a pre] & post & Hs).
    + left. apply prefix_true_iff. by exists post.
    + right. rewrite str_app_cons in Hs. injection Hs as _ ->. by exists pre, post.
  - intros [[rest Hrest]%prefix_true_iff|(pre & post & ->)].
    + exists EmptyString, rest. by rewrite Hrest.
    + by exists (String c pre), post.
Qed.

Lemma occurs_empty sub : sub ≠ EmptyString → ¬ occurs sub EmptyString.
Proof.
  intros Hsub ([|a pre] & post & Hs).
  - rewrite str_app_nil in Hs. destruct sub; [done|].
    by rewrite str_app_cons in Hs.
  - by rewrite str_app_cons in Hs.
Qed.

Section replace.

Variables old new : string.
Hypothesis old_non_empty : old ≠ EmptyString.

Lemma str_replace_length skip s :
  String.length (str_replace_from old new skip s) + skip `min` String.length s
    + str_count_from old skip s * String.length old
  = String.length s + str_count_from old skip s * String.length new.
Proof.
  assert (1 ≤ String.length old) as Hold by (destruct old; [done|cbn; lia]).
  revert skip. induction s as [|c s IH]; intros skip; [cbn; lia|].
  cbn [str_replace_from str_count_from]. destruct skip as [|n].
  - destruct (String.prefix old (String c s)) eqn:Hp.
    + apply prefix_length in Hp. cbn [String.length] in Hp.
      specialize (IH (String.length old - 1)).
      rewrite str_length_app. cbn [String.length]. nia.
    + specialize (IH 0). cbn [String.length]. lia.
  - specialize (IH n). cbn [String.length]. lia.
Qed.

Lemma str_count_zero s : str_count_from old 0 s = 0 ↔ ¬ occurs old s.
Proof.
  induction s as [|c s IH]; [split; [intros _; by apply occurs_empty|done]|].
  cbn [str_count_from]. rewrite occurs_cons.
  destruct (String.prefix old (String c s)); [split; [done|intros []; by left]|].
  rewrite IH. split; [intros ? [?|?]; done|intros H ?; apply H; by right].
Qed.

Lemma str_replace_no_occurrence s :
  ¬ occurs old s → str_replace_from old new 0 s = s.
Proof.
  induction s as [|c s IH]; [done|]. rewrite occurs_cons. intros Hno.
  cbn [str_replace_from].
  destruct (String.prefix old (String c s)); [destruct Hno; by left|].
  rewrite IH; [done|]. intros ?. apply Hno. by right.
Qed.

Lemma str_replace_occurs s :
  String.prefix old new = true → occurs old s →
  occurs old (str_replace_from old new 0 s).
Proof.
  intros [rest Hnew]%prefix_true_iff.
  induction s as [|c s IH]; [by intros ?%occurs_empty|].
  intros Hocc. cbn [str_replace_from].
  destruct (String.prefix old (String c s)) eqn:Hp.
  - exists EmptyString, (rest +:+ str_replace_from old new (String.length old - 1) s).
    by rewrite str_app_nil, Hnew, str_app_assoc.
  - apply occurs_cons. right. apply IH.
    apply occurs_cons in Hocc as [Hocc|Hocc]; [congruence|done].
Qed.

End replace.

(** X19. [query_rewriting] lengthens the query by 24 characters for every
    occurrence of the marker, counted as [str.count] counts them. *)
Theorem query_rewriting_length (query : string) :
  String.length (query_rewriting query)
  = String.length query + 24 * str_count "important_term" query.
Proof.
  unfold query_rewriting, str_replace, str_count.
  pose proof (str_replace_length "important_term"
                "important_term OR synonym1 OR synonym2" ltac:(done) 0 query) as H.
  cbn [String.length] in H. lia.
Qed.

(** X20. A query is left unchanged by [query_rewriting] exactly when the
    marker does not occur in it. *)
Theorem query_rewriting_unchanged_iff (query : string) :
  query_rewriting query = query ↔ ¬ occurs "important_term" query.
Proof.
  split.
  - intros Heq Hocc.
    pose proof (str_replace_length "important_term"
                  "important_term OR synonym1 OR synonym2" ltac:(done) 0 query) as H.
    fold (str_replace "important_term" "important_term OR synonym1 OR synonym2" query) in H.
    fold (query_rewriting query) in H. rewrite Heq in H. cbn [String.length] in H.
    assert (str_count_from "important_term" 0 query = 0) as H0 by lia.
    by apply str_count_zero in H0.
  - intros Hno. by apply str_replace_no_occurrence.
Qed.

(** X21. The rewriting is not idempotent: when the marker occurs in the
    query it occurs in the rewritten query too, so that rewriting again
    changes the query again. *)
Theorem query_rewriting_not_idempotent (query : string) :
  occurs "important_term" query →
  occurs "important_term" (query_rewriting query)
  ∧ query_rewriting (query_rewriting query) ≠ query_rewriting query.
Proof.
  intros Hocc.
  assert (occurs "important_term" (query_rewriting query)) as Hocc'
    by (by apply str_replace_occurs).
  split; [done|]. intros Heq.
  pose proof (str_replace_length "important_term"
                "important_term OR synonym1 OR synonym2" ltac:(done) 0
                (query_rewriting query)) as H.
  fold (str_replace "important_term" "important_term OR synonym1 OR synonym2"
          (query_rewriting query)) in H.
  fold (query_rewriting (query_rewriting query)) in H.
  rewrite Heq in H. cbn [String.length] in H.
  assert (str_count_from "important_term" 0 (query_rewriting query) = 0) as H0 by lia.
  by apply str_count_zero in H0.
Qed.

Lemma query_rewriting_not_idempotent_witness :
  occurs "important_term" (query_rewriting "an important_term here")
  ∧ query_rewriting (query_rewriting "an important_term here")
    ≠ query_rewriting "an important_term here".
Proof.
  apply (query_rewriting_not_idempotent "an important_term here").
  exists "an ", " here". reflexivity.
Defined.

(** ** Concept-based search *)

(** X22. [get_related_terms] returns no term, so [concept_based_search]
    scores every document 0 for every query and every index. *)
Theorem concept_based_search_zero (self : AdvancedRanking) (query_terms : list string)
    (doc_id : Z) :
  concept_based_search self query_terms doc_id = 0%Z.
Proof.
  unfold concept_based_search. generalize 0%Z.
  induction query_terms as [|t l IH]; intros score; [done|].
  cbn [foldl get_related_terms]. apply IH.
Qed.
